(** * Pokemon TCG price tracker: the resilient fetcher, the paginators,
      the set-name resolver, the price extractor and the CSV sort key.

    Shallow embedding of [src/Python/improved_set_tracker.py] (class
    [SetTracker]) and of [src/Python/pokemon_tcg_price_tracker.py] (class
    [PokemonTCGPriceTracker]: [search_cards], [get_card_prices], the
    flattening loop of [save_price_data], [track_cards]).  Files written,
    printed messages and the pivot table are not modelled.

    Conventions.
    - A Python [str] is a sequence of Unicode code points: [list N].
    - Python integers are [Z]; delays (seconds) are rationals [Q].  The
      delays that occur below (1.0 times a power of 2) are exact binary
      floats, so Python's arithmetic on them involves no rounding.
    - [None] of an optional value is [None]; a missing dictionary key of a
      response is [None] of the corresponding field.
    - The outside world (the HTTP server, seen through [requests.get]) is an
      oracle: the outcome of the n-th request, possibly depending on the
      request itself.  Effects ([requests.get], [time.sleep]) are recorded
      in a log. *)

From Stdlib Require Import ZArith QArith List Bool Lia String Ascii.
From Stdlib Require Import Qpower Permutation Sorted.
Import ListNotations.
Local Open Scope Z_scope.
Set Warnings "-register-all".

(** ** Strings *)

Definition str := list N.

(** An ASCII literal as a Python string. *)
Definition py (s : string) : str :=
  map N_of_ascii (list_ascii_of_string s).

Fixpoint str_eqb (a b : str) : bool :=
  match a, b with
  | [], [] => true
  | x :: a', y :: b' => N.eqb x y && str_eqb a' b'
  | _, _ => false
  end.

(** ** JSON values, as [response.json()] produces them *)

Inductive json :=
| JNull
| JBool (b : bool)
| JNum (q : Q)
| JStr (s : str)
| JList (l : list json)
| JDict (d : list (str * json)).

(** ** The world and the effect monad *)

(** URL and query parameters of one request. *)
Inductive request :=
| ReqSets (page pageSize : Z)              (* GET /sets?page=&pageSize= *)
| ReqCards (q : str) (page pageSize : Z)   (* GET /cards?q=&page=&pageSize= *)
| ReqCard (card_id : str).                 (* GET /cards/{id} *)

(** What [requests.get] followed by [response.json()] can do.  [B] is the
    type of a parsed body. *)
Inductive outcome (B : Type) :=
| HttpRaises                                (* requests.get raises *)
| HttpResponse (status_code : Z) (body : option B).
    (* [body = None]: [response.json()] raises (the body is not JSON) *)
Arguments HttpRaises {B}.
Arguments HttpResponse {B} status_code body.

Inductive event :=
| EvCall (r : request)      (* safe_api_call is entered for this request *)
| EvGet (r : request)       (* requests.get is issued *)
| EvSleep (seconds : Q).    (* time.sleep returns *)

Record state := mkState {
  sent : nat;               (* number of HTTP requests issued so far *)
  log : list event          (* effects so far, oldest first *)
}.

Definition init : state := mkState 0 [].

Inductive exn :=
| RequestException
| JSONDecodeError
| ValueError
| IndexError.

(** Result of running a computation: a value, an exception that escaped, or
    a loop that was cut off by its fuel. *)
Inductive result (A : Type) :=
| Ret (a : A) (s : state)
| Exc (e : exn) (s : state)
| OutOfFuel.
Arguments Ret {A} a s.
Arguments Exc {A} e s.
Arguments OutOfFuel {A}.

Definition M (A : Type) := state -> result A.

Definition ret {A} (a : A) : M A := fun s => Ret a s.
Definition raise {A} (e : exn) : M A := fun s => Exc e s.
Definition diverge {A} : M A := fun _ => OutOfFuel.

Definition bind {A B} (m : M A) (k : A -> M B) : M B :=
  fun s => match m s with
           | Ret a s' => k a s'
           | Exc e s' => Exc e s'
           | OutOfFuel => OutOfFuel
           end.

(** [try: m  except Exception: h]. *)
Definition try_except {A} (m : M A) (h : exn -> M A) : M A :=
  fun s => match m s with
           | Exc e s' => h e s'
           | r => r
           end.

Notation "x <- m ;; k" := (bind m (fun x => k))
  (at level 61, m at next level, right associativity).
Notation "m ;;; k" := (bind m (fun _ => k))
  (at level 61, right associativity).

Definition emit (e : event) : M unit :=
  fun s => Ret tt (mkState (sent s) (log s ++ [e])).

(** [time.sleep(t)]: raises ValueError for a negative length.  Lengths
    beyond the range of the platform clock (about 9.2e9 seconds in CPython,
    where [time.sleep] raises OverflowError) and waits whose computation
    overflows a float are outside this model: a statement that needs a
    sleep to return is made for waits within [SLEEP_LIMIT] only. *)
Definition sleep (t : Q) : M unit :=
  if Qle_bool 0 t then emit (EvSleep t) else raise ValueError.

Section Fetcher.

Variable B : Type.
(** The server: outcome of the n-th request (counted from 0). *)
Variable http : nat -> request -> outcome B.

Record response := mkResponse {
  status_code : Z;
  json_body : option B
}.

(** [requests.get(url, params=params, headers=self.headers)] *)
Definition requests_get (r : request) : M response :=
  fun s =>
    let s' := mkState (S (sent s)) (log s ++ [EvGet r]) in
    match http (sent s) r with
    | HttpRaises => Exc RequestException s'
    | HttpResponse c b => Ret (mkResponse c b) s'
    end.

(** [response.json()] *)
Definition response_json (resp : response) : M B :=
  match json_body resp with
  | Some b => ret b
  | None => raise JSONDecodeError
  end.

(** How one iteration of the retry loop ends. *)
Inductive flow :=
| Return (v : option B)       (* return v *)
| Continue (retries : Z)      (* continue *)
| Fallthrough (retries : Z).  (* the end of the try statement is reached *)

Variable rate_limit_delay : Q.   (* self.rate_limit_delay *)

Definition backoff (backoff_factor : Q) (retries : Z) : Q :=
  rate_limit_delay * Qpower backoff_factor retries.

Fixpoint safe_api_call_loop (fuel : nat) (r : request)
         (max_retries : Z) (backoff_factor : Q) (retries : Z)
  : M (option B) :=
  match fuel with
  | O => diverge
  | S fuel' =>
    if retries <=? max_retries then
      f <- try_except
             (resp <- requests_get r ;;
              if status_code resp =? 200 then
                b <- response_json resp ;;
                ret (Return (Some b))
              else if status_code resp =? 429 then
                let wait_time := backoff backoff_factor retries in
                sleep wait_time ;;;
                ret (Continue (retries + 1))
              else
                ret (Return None))
             (fun _ =>
                let retries := retries + 1 in
                if retries <=? max_retries then
                  let wait_time := backoff backoff_factor retries in
                  sleep wait_time ;;;
                  ret (Fallthrough retries)
                else
                  ret (Return None)) ;;
      match f with
      | Return v => ret v
      | Continue retries' =>
          safe_api_call_loop fuel' r max_retries backoff_factor retries'
      | Fallthrough retries' =>
          (* Always add delay between requests to avoid rate limiting *)
          sleep rate_limit_delay ;;;
          safe_api_call_loop fuel' r max_retries backoff_factor retries'
      end
    else ret None
  end.

(** [safe_api_call(url, params, max_retries, backoff_factor)]; the callers
    below pass the defaults [max_retries=3], [backoff_factor=2].  The loop
    runs at most [max_retries + 1] iterations; one more unit of fuel is for
    the final test of the loop condition. *)
Definition safe_api_call (r : request) (max_retries : Z)
           (backoff_factor : Q) : M (option B) :=
  emit (EvCall r) ;;;
  safe_api_call_loop (S (Z.to_nat (max_retries + 1))) r
                     max_retries backoff_factor 0.

End Fetcher.

Arguments status_code {B} r.
Arguments json_body {B} r.

(** ** The paginators *)

(** A page of the listing endpoints, [{data: [...], count, totalCount}];
    a field is [None] when the key is absent from the response. *)
Record page_response (A : Type) := mkPage {
  data : option (list A);
  count : option Z;
  totalCount : option Z
}.
Arguments mkPage {A} data count totalCount.
Arguments data {A} p.
Arguments count {A} p.
Arguments totalCount {A} p.

(** A set record: its name ([s.get('name')], [None] when absent) and the
    other fields, passed through. *)
Record set_descriptor := mkSet {
  sd_name : option str;
  sd_aux : list (str * json)
}.

(** What [get_all_set_names] returns: the literal [[]] or the tuple
    [(set_names, all_sets)]. *)
Inductive sets_return :=
| RetEmptyList
| RetPair (set_names : list (option str)) (all_sets : list set_descriptor).

(** How the body of a pagination loop ends once the page is fetched. *)
Inductive sets_flow :=
| SReturnEmpty                             (* return [] *)
| SBreak (all_sets : list set_descriptor)  (* break *)
| SNext (all_sets : list set_descriptor).  (* page += 1 *)

Inductive cards_flow (A : Type) :=
| CBreak (all_cards : list A)              (* break *)
| CNext (all_cards : list A).              (* page += 1 *)
Arguments CBreak {A} all_cards.
Arguments CNext {A} all_cards.

Definition is_empty {A} (l : list A) : bool :=
  match l with [] => true | _ => false end.

(** [not response_data or 'data' not in response_data]: a dictionary with
    a ['data'] key is not empty, hence truthy. *)
Definition no_data {A} (response_data : option (page_response A)) : bool :=
  match response_data with
  | None => true
  | Some rd => match data rd with None => true | Some _ => false end
  end.

(** [response_data.get('data', [])] *)
Definition get_data {A} (response_data : option (page_response A)) : list A :=
  match response_data with
  | Some rd => match data rd with Some d => d | None => [] end
  | None => []
  end.

(** ['count' in response_data and 'totalCount' in response_data], with
    the two values. *)
Definition counts {A} (response_data : option (page_response A))
  : option (Z * Z) :=
  match response_data with
  | Some rd => match count rd, totalCount rd with
               | Some c, Some t => Some (c, t)
               | _, _ => None
               end
  | None => None
  end.

(** Body of the loop of [get_all_set_names], after the fetch. *)
Definition sets_page (page : Z) (all_sets : list set_descriptor)
           (response_data : option (page_response set_descriptor))
  : sets_flow :=
  if no_data response_data then
    if page =? 1 then SReturnEmpty else SBreak all_sets
  else
    let sets_data := get_data response_data in
    if is_empty sets_data then SBreak all_sets
    else
      let all_sets := all_sets ++ sets_data in
      match counts response_data with
      | Some (c, t) => if c * page >=? t then SBreak all_sets
                       else SNext all_sets
      | None => SNext all_sets
      end.

(** Body of the loop of [search_cards], after the fetch. *)
Definition cards_page {A} (all_cards : list A)
           (response_data : option (page_response A)) : cards_flow A :=
  if no_data response_data then CBreak all_cards
  else
    let page_cards := get_data response_data in
    if is_empty page_cards then CBreak all_cards
    else
      let all_cards := all_cards ++ page_cards in
      match counts response_data with
      | Some (_, t) =>
          if negb (is_empty page_cards)
             && (Z.of_nat (List.length all_cards) >=? t)
          then CBreak all_cards else CNext all_cards
      | None => CNext all_cards
      end.

Section Paginator.

Variable rate_limit_delay : Q.

Section Sets.
Variable http : nat -> request -> outcome (page_response set_descriptor).

(** [while True:] has no bound of its own; [fuel] cuts the model off. *)
Fixpoint get_all_set_names_loop (fuel : nat) (page : Z)
         (all_sets : list set_descriptor) : M sets_return :=
  match fuel with
  | O => diverge
  | S fuel' =>
    response_data <-
      safe_api_call _ http rate_limit_delay (ReqSets page 250) 3 2 ;;
    match sets_page page all_sets response_data with
    | SReturnEmpty => ret RetEmptyList
    | SBreak all_sets =>
        (* set_names = [s.get('name') for s in all_sets] *)
        ret (RetPair (map sd_name all_sets) all_sets)
    | SNext all_sets => get_all_set_names_loop fuel' (page + 1) all_sets
    end
  end.

Definition get_all_set_names (fuel : nat) : M sets_return :=
  get_all_set_names_loop fuel 1 [].
End Sets.

Section Cards.
Variable A : Type.
Variable http : nat -> request -> outcome (page_response A).

Fixpoint search_cards_loop (fuel : nat) (query : str) (max_pages : Z)
         (page : Z) (all_cards : list A) : M (list A) :=
  match fuel with
  | O => diverge
  | S fuel' =>
    if page <=? max_pages then
      response_data <-
        safe_api_call _ http rate_limit_delay
                      (ReqCards query page 250) 3 2 ;;
      match cards_page all_cards response_data with
      | CBreak all_cards => ret all_cards
      | CNext all_cards =>
          search_cards_loop fuel' query max_pages (page + 1) all_cards
      end
    else ret all_cards
  end.

(** [search_cards(query, max_pages)]; [page] runs from 1 to at most
    [max_pages], one more unit of fuel is for the final test. *)
Definition search_cards (query : str) (max_pages : Z) : M (list A) :=
  search_cards_loop (S (Z.to_nat max_pages)) query max_pages 1 [].
End Cards.
End Paginator.

(** The caller's [available_set_names, all_sets_data = ...]: unpacking a
    sequence into two targets raises ValueError unless it has two items. *)
Definition unpack2 (v : sets_return)
  : exn + (list (option str) * list set_descriptor) :=
  match v with
  | RetEmptyList => inl ValueError
  | RetPair set_names all_sets => inr (set_names, all_sets)
  end.

(** The waits, the requests and the calls recorded in a log. *)
Definition sleeps (l : list event) : list Q :=
  flat_map (fun e => match e with EvSleep t => [t] | _ => [] end) l.
Definition gets (l : list event) : list request :=
  flat_map (fun e => match e with EvGet r => [r] | _ => [] end) l.
Definition calls (l : list event) : list request :=
  flat_map (fun e => match e with EvCall r => [r] | _ => [] end) l.

(** The state in which a computation stopped, if it did. *)
Definition final {A} (r : result A) : option state :=
  match r with
  | Ret _ s => Some s
  | Exc _ s => Some s
  | OutOfFuel => None
  end.

(** ** String operations used by the resolver *)

(** [str.isspace] of one character, which is also the class [\s] of a
    Unicode pattern. *)
Definition is_space (c : N) : bool :=
  ((9 <=? c) && (c <=? 13) || (28 <=? c) && (c <=? 32)
   || (c =? 133) || (c =? 160) || (c =? 5760)
   || (8192 <=? c) && (c <=? 8202)
   || (c =? 8232) || (c =? 8233) || (c =? 8239) || (c =? 8287)
   || (c =? 12288))%N.

(** The character class of the pattern [[-—_&\s]+]: hyphen, em dash
    (U+2014), underscore, ampersand, whitespace. *)
Definition is_separator (c : N) : bool :=
  ((c =? 45) || (c =? 8212) || (c =? 95) || (c =? 38))%N || is_space c.

(** [s.startswith(p)] *)
Fixpoint startswith (p s : str) : bool :=
  match p, s with
  | [], _ => true
  | _ :: _, [] => false
  | x :: p', y :: s' => N.eqb x y && startswith p' s'
  end.

(** [sub in s] *)
Fixpoint contains (sub s : str) : bool :=
  startswith sub s ||
  match s with
  | [] => false
  | _ :: s' => contains sub s'
  end.

(** [x in l] for a list of strings *)
Definition mem (x : str) (l : list str) : bool := existsb (str_eqb x) l.

(** Scan for [s.split(sep)]: [skip] characters of a separator just found
    remain to be dropped, [cur] is the current piece, reversed. *)
Fixpoint split_scan (sep s : str) (skip : nat) (cur : str) : list str :=
  match s with
  | [] => [rev cur]
  | c :: s' =>
    match skip with
    | S k => split_scan sep s' k cur
    | O => if startswith sep s
           then rev cur :: split_scan sep s' (List.length sep - 1) []
           else split_scan sep s' 0 (c :: cur)
    end
  end.

(** [s.split(sep)]; an empty separator raises ValueError. *)
Definition split (sep s : str) : exn + list str :=
  match sep with
  | [] => inl ValueError
  | _ :: _ => inr (split_scan sep s 0 [])
  end.

(** [l[0]] *)
Definition index0 {A} (l : list A) : exn + A :=
  match l with
  | [] => inl IndexError
  | x :: _ => inr x
  end.

Fixpoint lstrip (s : str) : str :=
  match s with
  | c :: s' => if is_space c then lstrip s' else s
  | [] => []
  end.

(** [s.strip()] *)
Definition strip (s : str) : str := rev (lstrip (rev (lstrip s))).

(** Scan for [re.split(r'[-—_&\s]+', s)]: [in_sep] holds inside a run of
    separators, [cur] is the current piece, reversed. *)
Fixpoint re_split_scan (s : str) (in_sep : bool) (cur : str) : list str :=
  match s with
  | [] => [rev cur]
  | c :: s' =>
    if is_separator c then
      if in_sep then re_split_scan s' true []
      else rev cur :: re_split_scan s' true []
    else re_split_scan s' false (c :: cur)
  end.

Definition re_split (s : str) : list str := re_split_scan s false [].

(** Exceptions in pure code. *)
Definition bind_exn {A B} (m : exn + A) (k : A -> exn + B) : exn + B :=
  match m with
  | inl e => inl e
  | inr a => k a
  end.

Notation "x <-- m ; k" := (bind_exn m (fun x => k))
  (at level 61, m at next level, right associativity).

Definition BLACK_STAR : str := py "Black Star".
Definition BLACK_STAR_PROMOS : str := py "Black Star Promos".

(** ** The set-name resolver *)

Section Resolver.

(** [str.lower]: Python's Unicode case mapping, whose table is not part
    of the program. *)
Variable lower : str -> str.

(** Tier 2: [s.lower() == target_name.lower()] *)
Definition same_lower (target_name s : str) : bool :=
  str_eqb (lower s) (lower target_name).

(** Tier 3: the test of the promo loop, for one [s]. *)
Definition promo_match (target_name s : str) : exn + bool :=
  parts <-- split BLACK_STAR target_name ;
  p0 <-- index0 parts ;
  inr (contains (strip p0) s && contains BLACK_STAR_PROMOS s).

Fixpoint promo_scan (target_name : str) (available_sets : list str)
  : exn + option str :=
  match available_sets with
  | [] => inr None
  | s :: rest =>
      b <-- promo_match target_name s ;
      if b then inr (Some s) else promo_scan target_name rest
  end.

(** Tier 4: [target_name.lower() in s.lower()] *)
Definition partial_match (target_name s : str) : bool :=
  contains (lower target_name) (lower s).

(** Tier 5: [sum(1 for term in target_terms if term in set_terms)] *)
Definition matched_terms (target_terms : list str) (s : str) : nat :=
  let set_terms := re_split (lower s) in
  List.length (filter (fun term => mem term set_terms) target_terms).

(** One iteration of the scoring loop on [(best_match, most_terms_matched)]. *)
Definition token_step (target_terms : list str)
           (acc : option str * nat) (s : str) : option str * nat :=
  let '(best_match, most_terms_matched) := acc in
  let m := matched_terms target_terms s in
  if (most_terms_matched <? m)%nat then (Some s, m)
  else (best_match, most_terms_matched).

Definition token_overlap (target_name : str) (available_sets : list str)
  : option str :=
  let target_terms := re_split (lower target_name) in
  fst (fold_left (token_step target_terms) available_sets (None, 0%nat)).

Definition find_closest_set_name (target_name : str)
           (available_sets : list str) : exn + option str :=
  (* First try exact match *)
  if mem target_name available_sets then inr (Some target_name)
  else
    (* Try case-insensitive match *)
    match find (same_lower target_name) available_sets with
    | Some s => inr (Some s)
    | None =>
      (* "Black Star Promos" special handling *)
      promo <-- (if contains BLACK_STAR_PROMOS target_name
                 then promo_scan target_name available_sets
                 else inr None) ;
      match promo with
      | Some s => inr (Some s)
      | None =>
        (* Partial matches *)
        let matches := filter (partial_match target_name) available_sets in
        if negb (is_empty matches) then
          m <-- index0 matches ; inr (Some m)
        else
          (* Token overlap *)
          inr (token_overlap target_name available_sets)
      end
    end.

End Resolver.

(** [str.lower] on ASCII strings. *)
Definition ascii_lower (s : str) : str :=
  map (fun c => if ((65 <=? c) && (c <=? 90))%N then (c + 32)%N else c) s.


(** ** The price extractor *)

(** The dictionary [get_card_prices] returns for a card that has prices.
    [pd_number] is [None] when the API gives a null number. *)
Record price_data := mkPriceData {
  pd_id : str;
  pd_name : str;
  pd_set : str;
  pd_number : option str;
  pd_rarity : str;
  pd_prices : list (str * json);   (* tcgplayer.prices, in iteration order *)
  pd_updated_at : str
}.

(** A row of [all_price_data] (set tracker: market price only). *)
Record price_entry := mkEntry {
  e_id : str;
  e_name : str;
  e_set : str;
  e_number : option str;
  e_rarity : str;
  e_condition : str;
  e_price : json;
  e_updated_at : str;
  e_fetched_at : str
}.

(** A row of [flat_data] (single-card tracker: every price type). *)
Record flat_entry := mkFlat {
  f_id : str;
  f_name : str;
  f_set : str;
  f_number : option str;
  f_rarity : str;
  f_condition : str;
  f_price_type : str;
  f_price : json;
  f_updated_at : str;
  f_fetched_at : str
}.

(** [d[k]] / [k in d] on the items of a dictionary. *)
Fixpoint dict_get (k : str) (d : list (str * json)) : option json :=
  match d with
  | [] => None
  | (k', v) :: d' => if str_eqb k k' then Some v else dict_get k d'
  end.

(** [v is not None] *)
Definition is_not_none (v : json) : bool :=
  match v with JNull => false | _ => true end.

Section Extractor.

(** [datetime.now().strftime(...)] *)
Variable now : str.

(** Body of the loop over [price_data['prices'].items()] in
    [track_multiple_sets_to_csv]. *)
Definition market_rows (pd : price_data) (condition : str) (prices : json)
  : list price_entry :=
  match prices with
  | JDict d =>
      match dict_get (py "market") d with
      | Some market =>
          if is_not_none market then
            [ mkEntry (pd_id pd) (pd_name pd) (pd_set pd) (pd_number pd)
                      (pd_rarity pd) condition market
                      (pd_updated_at pd) now ]
          else []
      | None => []
      end
  | _ => []
  end.

Definition extract_market (pd : price_data) : list price_entry :=
  flat_map (fun cp => market_rows pd (fst cp) (snd cp)) (pd_prices pd).

(** Body of the loop over [card_data['prices'].items()] in
    [save_price_data]. *)
Definition flat_rows (pd : price_data) (condition : str) (prices : json)
  : list flat_entry :=
  match prices with
  | JDict d =>
      flat_map (fun tp =>
                  if is_not_none (snd tp) then
                    [ mkFlat (pd_id pd) (pd_name pd) (pd_set pd)
                             (pd_number pd) (pd_rarity pd) condition
                             (fst tp) (snd tp) (pd_updated_at pd) now ]
                  else []) d
  | _ => []
  end.

Definition flatten_prices (pd : price_data) : list flat_entry :=
  flat_map (fun cp => flat_rows pd (fst cp) (snd cp)) (pd_prices pd).

End Extractor.

(** ** The sort of the CSV rows *)

(** [numeric_part]: an integer or [float('inf')]. *)
Inductive numeric_part :=
| Finite (n : Z)
| Infinity.

Definition num_compare (a b : numeric_part) : comparison :=
  match a, b with
  | Finite x, Finite y => Z.compare x y
  | Finite _, Infinity => Lt
  | Infinity, Finite _ => Gt
  | Infinity, Infinity => Eq
  end.

(** Order of Python strings: lexicographic on code points. *)
Fixpoint str_compare (a b : str) : comparison :=
  match a, b with
  | [], [] => Eq
  | [], _ :: _ => Lt
  | _ :: _, [] => Gt
  | x :: a', y :: b' =>
      match N.compare x y with
      | Eq => str_compare a' b'
      | c => c
      end
  end.

Definition lex (c1 c2 : comparison) : comparison :=
  match c1 with Eq => c2 | _ => c1 end.

(** [[a-zA-Z]] *)
Definition is_letter (c : N) : bool :=
  ((65 <=? c) && (c <=? 90) || (97 <=? c) && (c <=? 122))%N.

Fixpoint leading_letters (s : str) : str :=
  match s with
  | c :: s' => if is_letter c then c :: leading_letters s' else []
  | [] => []
  end.

(** [re.search(r'([a-zA-Z]+)', s)]: the first maximal run of letters. *)
Fixpoint search_letters (s : str) : option str :=
  match s with
  | [] => None
  | c :: s' => if is_letter c then Some (c :: leading_letters s')
               else search_letters s'
  end.

Definition extract_letter (num_str : option str) : str :=
  match num_str with
  | None => []                          (* pd.isna(num_str) *)
  | Some s => match search_letters s with
              | Some m => m
              | None => []
              end
  end.

Section SortKey.

(** The value of a decimal digit ([\d], Unicode category Nd), [None] for
    any other character; the table is not part of the program. *)
Variable decimal : N -> option Z.

Fixpoint leading_digits (s : str) : list Z :=
  match s with
  | c :: s' => match decimal c with
               | Some d => d :: leading_digits s'
               | None => []
               end
  | [] => []
  end.

(** [re.search(r'(\d+)', s)]: the first maximal run of digits. *)
Fixpoint search_digits (s : str) : option (list Z) :=
  match s with
  | [] => None
  | c :: s' => match decimal c with
               | Some d => Some (d :: leading_digits s')
               | None => search_digits s'
               end
  end.

(** [int(digits)] *)
Definition int_of_digits (ds : list Z) : Z :=
  fold_left (fun acc d => 10 * acc + d) ds 0.

Definition extract_number (num_str : option str) : numeric_part :=
  match num_str with
  | None => Infinity                  (* pd.isna(num_str) *)
  | Some s => match search_digits s with
              | Some ds => Finite (int_of_digits ds)
              | None => Infinity      (* Non-numeric strings at the end *)
              end
  end.

(** Order of the rows under
    [sort_values(['set', 'numeric_part', 'alpha_part', 'condition'])]. *)
Definition row_compare (a b : price_entry) : comparison :=
  lex (str_compare (e_set a) (e_set b))
 (lex (num_compare (extract_number (e_number a))
                   (extract_number (e_number b)))
 (lex (str_compare (extract_letter (e_number a))
                   (extract_letter (e_number b)))
      (str_compare (e_condition a) (e_condition b)))).

Definition row_leb (a b : price_entry) : bool :=
  match row_compare a b with Gt => false | _ => true end.

(** [sort_values] on several columns is a stable sort; it is modelled by
    a stable insertion sort. *)
Fixpoint insert_row (x : price_entry) (l : list price_entry)
  : list price_entry :=
  match l with
  | [] => [x]
  | y :: l' => if row_leb x y then x :: l else y :: insert_row x l'
  end.

Fixpoint sort_values (l : list price_entry) : list price_entry :=
  match l with
  | [] => []
  | x :: l' => insert_row x (sort_values l')
  end.

End SortKey.

(** The decimal digits of ASCII. *)
Definition ascii_decimal (c : N) : option Z :=
  if ((48 <=? c) && (c <=? 57))%N then Some (Z.of_N c - 48) else None.

(** A row that differs from [e] in its number only. *)
Definition with_number (e : price_entry) (number : option str) : price_entry :=
  mkEntry (e_id e) (e_name e) (e_set e) number (e_rarity e)
          (e_condition e) (e_price e) (e_updated_at e) (e_fetched_at e).

(** ** Card records, and the rest of the set tracker *)

(** The [tcgplayer] block of a card; a field is [None] when its key is
    absent.  [prices] is a dictionary, given by its items in order. *)
Record tcgplayer_data := mkTcg {
  tp_prices : option (list (str * json));
  tp_updatedAt : option str
}.

(** A card as the API gives it.  [cd_number] distinguishes an absent key
    ([None]) from a null value ([Some None]). *)
Record card_data := mkCard {
  cd_id : str;
  cd_name : option str;
  cd_set : option set_descriptor;
  cd_number : option (option str);
  cd_rarity : option str;
  cd_tcgplayer : option tcgplayer_data
}.

(** The body of [GET /cards/{id}]: [{data: card}]. *)
Record card_response := mkCardResponse {
  cr_data : option card_data
}.

(** [d.get(k, '')] for a string field. *)
Definition get_or_empty (v : option str) : str :=
  match v with Some x => x | None => [] end.

(** The dictionary built by both [get_card_prices], [None] unless the card
    has ['tcgplayer'] with ['prices']. *)
Definition price_data_of (card_id : str) (cd : card_data)
  : option price_data :=
  match cd_tcgplayer cd with
  | Some tp =>
      match tp_prices tp with
      | Some prices =>
          Some (mkPriceData
                  card_id
                  (get_or_empty (cd_name cd))
                  (match cd_set cd with
                   | Some sd => get_or_empty (sd_name sd)
                   | None => []
                   end)
                  (match cd_number cd with
                   | Some number => number
                   | None => Some []
                   end)
                  (get_or_empty (cd_rarity cd))
                  prices
                  (get_or_empty (tp_updatedAt tp)))
      | None => None
      end
  | None => None
  end.

(** [d[k] = v] and [d.get(k)] on the items of a dictionary: an existing key
    keeps its place. *)
Fixpoint dict_set {V} (k : str) (v : V) (d : list (str * V))
  : list (str * V) :=
  match d with
  | [] => [(k, v)]
  | (k', v') :: d' => if str_eqb k k' then (k', v) :: d'
                      else (k', v') :: dict_set k v d'
  end.

Fixpoint dict_find {V} (k : str) (d : list (str * V)) : option V :=
  match d with
  | [] => None
  | (k', v) :: d' => if str_eqb k k' then Some v else dict_find k d'
  end.

Definition NOT_FOUND : str := py "Not found".

(** [f'set.name:"{matched_set}"'] *)
Definition set_query (matched_set : str) : str :=
  py "set.name:" ++ 34%N :: matched_set ++ [34%N].

(** [if not matched_set]: [None] and the empty string are falsy. *)
Definition matched (m : option str) : option str :=
  match m with
  | Some (c :: m') => Some (c :: m')
  | _ => None
  end.

Section SetTrackerRun.

Variable rate_limit_delay : Q.
Variable lower : str -> str.
Variable now : str.
(** The server, as the card search and as the card lookup read it. *)
Variable hc : nat -> request -> outcome (page_response card_data).
Variable hp : nat -> request -> outcome card_response.

(** [SetTracker.get_card_prices(card_id)] *)
Definition get_card_prices (card_id : str) : M (option price_data) :=
  response_data <-
    safe_api_call _ hp rate_limit_delay (ReqCard card_id) 3 2 ;;
  match response_data with
  | None => ret None
  | Some rd =>
      match cr_data rd with
      | None => ret None
      | Some card => ret (price_data_of card_id card)
      end
  end.

(** The loop over [total_cards] of [track_multiple_sets_to_csv]. *)
Fixpoint process_cards (total_cards : list card_data)
         (all_price_data : list price_entry) : M (list price_entry) :=
  match total_cards with
  | [] => ret all_price_data
  | card :: rest =>
      price_data <- get_card_prices (cd_id card) ;;
      process_cards rest
        (match price_data with
         | Some pd => all_price_data ++ extract_market now pd
         | None => all_price_data
         end)
  end.

(** The loop over [set_names] of [track_multiple_sets_to_csv], for the
    names [available_set_names] of a catalogue whose sets all have one. *)
Fixpoint process_sets (available_set_names : list str)
         (set_names : list str) (all_price_data : list price_entry)
         (set_name_mapping : list (str * str))
  : M (list price_entry * list (str * str)) :=
  match set_names with
  | [] => ret (all_price_data, set_name_mapping)
  | set_name :: rest =>
      match find_closest_set_name lower set_name available_set_names with
      | inl e => raise e
      | inr m =>
          match matched m with
          | None =>
              process_sets available_set_names rest all_price_data
                           (dict_set set_name NOT_FOUND set_name_mapping)
          | Some matched_set =>
              let set_name_mapping :=
                dict_set set_name matched_set set_name_mapping in
              total_cards <-
                search_cards rate_limit_delay _ hc
                             (set_query matched_set) 10 ;;
              if is_empty total_cards then
                process_sets available_set_names rest all_price_data
                             set_name_mapping
              else
                all_price_data <- process_cards total_cards all_price_data ;;
                process_sets available_set_names rest all_price_data
                             set_name_mapping
          end
      end
  end.

(** The sort key needs the digit table. *)
Variable decimal : N -> option Z.

(** [track_multiple_sets_to_csv] from the loop on (the catalogue has been
    fetched and saved by then): the sorted rows with the mapping, which is
    what the branch [if all_price_data:] returns and saves, or [None] when
    there is no row. *)
Definition track_sets (available_set_names set_names : list str)
  : M (option (list price_entry * list (str * str))) :=
  res <- process_sets available_set_names set_names [] [] ;;
  let '(all_price_data, set_name_mapping) := res in
  if negb (is_empty all_price_data)
  then ret (Some (sort_values decimal all_price_data, set_name_mapping))
  else ret None.

End SetTrackerRun.

(** What the mapping records for a requested name. *)
Definition resolved (lower : str -> str) (available_set_names : list str)
           (set_name : str) : str :=
  match find_closest_set_name lower set_name available_set_names with
  | inr m => match matched m with
             | Some matched_set => matched_set
             | None => NOT_FOUND
             end
  | inl _ => NOT_FOUND
  end.

(** ** The single-card tracker *)

Module PokemonTCGPriceTracker.
Section Run.

Variable now : str.
Variable hc : nat -> request -> outcome (page_response card_data).
Variable hp : nat -> request -> outcome card_response.

(** [search_cards(query, page, page_size)]: one request, no retry; an
    exception of [requests.get] or [response.json()] escapes. *)
Definition search_cards (query : str) (page page_size : Z)
  : M (option (page_response card_data)) :=
  response <- requests_get _ hc (ReqCards query page page_size) ;;
  if negb (status_code response =? 200) then ret None
  else
    b <- response_json _ response ;;
    ret (Some b).

(** [get_card_prices(card_id)] *)
Definition get_card_prices (card_id : str) : M (option price_data) :=
  response <- requests_get _ hp (ReqCard card_id) ;;
  if negb (status_code response =? 200) then ret None
  else
    b <- response_json _ response ;;
    (* card_data = response.json().get('data', {}) *)
    match cr_data b with
    | Some card => ret (price_data_of card_id card)
    | None => ret None
    end.

(** What [save_price_data(card_data)] writes to the CSV of the card:
    nothing when there are no prices or no non-null price. *)
Definition save_price_data (card : option price_data)
  : option (list flat_entry) :=
  match card with
  | None => None
  | Some pd =>
      if is_empty (pd_prices pd) then None
      else
        let flat_data := flatten_prices now pd in
        if negb (is_empty flat_data) then Some flat_data else None
  end.

(** The loop of [track_cards]: the consolidated [all_price_data] and the
    per-card CSVs written on the way. *)
Fixpoint track_loop (cards : list card_data)
         (all_price_data : list price_data)
         (saved : list (list flat_entry))
  : M (list price_data * list (list flat_entry)) :=
  match cards with
  | [] => ret (all_price_data, saved)
  | card :: rest =>
      price_data <- get_card_prices (cd_id card) ;;
      let '(all_price_data, saved) :=
        match price_data with
        | Some pd =>
            (all_price_data ++ [pd],
             match save_price_data (Some pd) with
             | Some rows => saved ++ [rows]
             | None => saved
             end)
        | None => (all_price_data, saved)
        end in
      (* Be nice to the API with a small delay *)
      sleep (1 # 2) ;;;
      track_loop rest all_price_data saved
  end.

(** [track_cards(query, output_file)] up to its file output. *)
Definition track_cards (query : str)
  : M (list price_data * list (list flat_entry)) :=
  search_results <- search_cards query 1 250 ;;
  match search_results with
  | None => ret ([], [])
  | Some sr =>
      match data sr with
      | None => ret ([], [])
      | Some cards => track_loop cards [] []
      end
  end.

End Run.
End PokemonTCGPriceTracker.

(** ** Concrete worlds and inputs used in examples *)

(** Three rate-limited responses, then success. *)
Definition three429 : nat -> request -> outcome unit :=
  fun n _ => if (n <? 3)%nat then HttpResponse 429 None
             else HttpResponse 200 (Some tt).

(** Every request fails at the transport level. *)
Definition unreachable : nat -> request -> outcome unit :=
  fun _ _ => HttpRaises.

(** Every request succeeds. *)
Definition ok200 : nat -> request -> outcome unit :=
  fun _ _ => HttpResponse 200 (Some tt).

Definition row0 : price_entry :=
  mkEntry (py "sv1-1") (py "Pikachu") (py "Base") None (py "Common")
          (py "holofoil") (JNum 1) [] [].

(** A sets listing that never signals its end: every page is one record,
    without [count] and [totalCount]. *)
Definition endless : nat -> request -> outcome (page_response set_descriptor) :=
  fun _ _ => HttpResponse 200 (Some (mkPage (Some [mkSet None []]) None None)).

(** A listing of 500 records served 250 per page. *)
Definition two_pages {A} (x : A)
  : nat -> request -> outcome (page_response A) :=
  fun _ _ =>
    HttpResponse 200 (Some (mkPage (Some (repeat x 250)) (Some 250) (Some 500))).

(** A server that answers every request with HTTP 500. *)
Definition broken : nat -> request -> outcome (page_response set_descriptor) :=
  fun _ _ => HttpResponse 500 None.

(** ** Vocabulary of the statements *)

(** A response on which the sets loop goes on, whatever the page number. *)
Definition keeps_going (o : outcome (page_response set_descriptor)) : Prop :=
  exists pg, o = HttpResponse 200 (Some pg) /\
    forall page all_sets, 1 <= page ->
      exists all_sets', sets_page page all_sets (Some pg) = SNext all_sets'.

(** [first_such p l x]: [x] is the first element of [l] that satisfies
    [p]. *)
Definition first_such {A} (p : A -> bool) (l : list A) (x : A) : Prop :=
  exists l1 l2, l = l1 ++ x :: l2 /\ p x = true
                /\ forall y, In y l1 -> p y = false.

(** [first_best score l x]: [x] is the first element of [l] with the highest
    score, and that score is positive: everything before it scores strictly
    less, nothing after it scores more. *)
Definition first_best {A} (score : A -> nat) (l : list A) (x : A) : Prop :=
  exists l1 l2, l = l1 ++ x :: l2 /\ (0 < score x)%nat
                /\ (forall y, In y l1 -> (score y < score x)%nat)
                /\ (forall y, In y l2 -> (score y <= score x)%nat).

(** The promo test as a boolean ([false] if it were to raise). *)
Definition promo_true (target_name s : str) : bool :=
  match promo_match target_name s with
  | inr b => b
  | inl _ => false
  end.

(** The order of two rows that differ in their number only, and the sort of
    the numbers under it. *)
Definition number_leb (decimal : N -> option Z) (a b : option str) : bool :=
  match lex (num_compare (extract_number decimal a) (extract_number decimal b))
            (str_compare (extract_letter a) (extract_letter b)) with
  | Gt => false
  | _ => true
  end.

Fixpoint insert_number (decimal : N -> option Z) (x : option str)
         (l : list (option str)) : list (option str) :=
  match l with
  | [] => [x]
  | y :: l' => if number_leb decimal x y then x :: l
               else y :: insert_number decimal x l'
  end.

Fixpoint sort_numbers (decimal : N -> option Z) (l : list (option str))
  : list (option str) :=
  match l with
  | [] => []
  | x :: l' => insert_number decimal x (sort_numbers decimal l')
  end.

(** [post m s Qr Qe]: from [s], [m] stops; with a value in a state that
    satisfies [Qr], or with an exception in a state that satisfies [Qe]. *)
Definition post {A} (m : M A) (s : state)
           (Qr : A -> state -> Prop) (Qe : state -> Prop) : Prop :=
  match m s with
  | Ret a s' => Qr a s'
  | Exc _ s' => Qe s'
  | OutOfFuel => False
  end.

(** [extends s s']: [s'] is [s] after some requests and sleeps, without a
    new call of [safe_api_call]. *)
Definition extends (s s' : state) : Prop :=
  exists l, log s' = log s ++ l /\ calls l = [].

(** Invariant of the scoring loop of the token tier, after the candidates
    [pre]: [acc] is [(best_match, most_terms_matched)]. *)
Definition token_inv (score : str -> nat) (pre : list str)
           (acc : option str * nat) : Prop :=
  match fst acc with
  | Some b => first_best score pre b /\ snd acc = score b
  | None => snd acc = 0%nat /\ forall y, In y pre -> score y = 0%nat
  end.

(** [trace_ok http r k s v s']: from [s] to [s'] the retry loop for the
    request [r] only slept and issued at most [k] requests, all of them [r];
    and a value [Some b] is the body of the last response, which was a
    200. *)
Definition trace_ok {B} (http : nat -> request -> outcome B) (r : request)
           (k : nat) (s : state) (v : option B) (s' : state) : Prop :=
  exists l,
    log s' = log s ++ l
    /\ calls l = []
    /\ gets l = repeat r (List.length (gets l))
    /\ sent s' = (sent s + List.length (gets l))%nat
    /\ (List.length (gets l) <= k)%nat
    /\ forall b, v = Some b ->
         (0 < List.length (gets l))%nat
         /\ http (pred (sent s')) r = HttpResponse 200 (Some b).

(** Every response is a 429. *)
Definition always429 : nat -> request -> outcome unit :=
  fun _ _ => HttpResponse 429 None.

(** Every response has the status [c] and no JSON body. *)
Definition status_only (c : Z) : nat -> request -> outcome unit :=
  fun _ _ => HttpResponse c None.

(** The [n] waits of the 429 branch from the attempt [retries] on. *)
Fixpoint backoff_schedule (delay factor : Q) (retries : Z) (n : nat)
  : list Q :=
  match n with
  | O => []
  | S n' => backoff delay factor retries
            :: backoff_schedule delay factor (retries + 1) n'
  end.

(** The waits of [n] passes through the exception branch from the attempt
    [retries] on: the backoff of the incremented counter, then the fixed
    delay. *)
Fixpoint failure_schedule (delay factor : Q) (retries : Z) (n : nat)
  : list Q :=
  match n with
  | O => []
  | S n' => backoff delay factor (retries + 1) :: delay
            :: failure_schedule delay factor (retries + 1) n'
  end.

(** A request that fails inside the [try]: [requests.get] raises, or the
    200 response has no JSON body. *)
Definition fails {B} (o : outcome B) : Prop :=
  o = HttpRaises \/ o = HttpResponse 200 None.

(** The requests for the [k] pages from [page] on, in order. *)
Fixpoint page_requests (mk : Z -> request) (page : Z) (k : nat)
  : list request :=
  match k with
  | O => []
  | S k' => mk page :: page_requests mk (page + 1) k'
  end.

(** The records of the [k] pages from [page] on, in order, for a server
    that answers the request for page [p] with [serve p]. *)
Fixpoint page_data {A} (serve : Z -> page_response A) (page : Z) (k : nat)
  : list A :=
  match k with
  | O => []
  | S k' => get_data (Some (serve page)) ++ page_data serve (page + 1) k'
  end.

(** A server that answers the request for page 1 with the records [d] and
    every other request with the status [c]. *)
Definition first_page_only {A} (d : list A) (c : Z)
  : nat -> request -> outcome (page_response A) :=
  fun n _ => match n with
             | O => HttpResponse 200 (Some (mkPage (Some d) None None))
             | S _ => HttpResponse c None
             end.

(** A server that answers the request for page [p] with [serve p]. *)
Definition serving {A} (serve : Z -> page_response A)
  : nat -> request -> outcome (page_response A) :=
  fun _ req =>
    match req with
    | ReqSets p _ | ReqCards _ p _ => HttpResponse 200 (Some (serve p))
    | ReqCard _ => HttpResponse 404 None
    end.

(** The number of pages of a listing of [t] records served [c] per page
    (at least one page is always asked for). *)
Definition page_count (c t : Z) : Z := Z.max 1 ((t + c - 1) / c).

(** A response that [requests.get] and [response.json()] accept: no
    exception, and a 200 has a JSON body. *)
Definition well_formed {B} (o : outcome B) : Prop :=
  match o with
  | HttpRaises => False
  | HttpResponse c b => c = 200 -> b <> None
  end.

(** A card with the given id and market price of its ["holofoil"]
    condition, and the server that answers every card request with it. *)
Definition sample_card (card_id : str) (market : json) : card_data :=
  mkCard card_id (Some (py "Pikachu"))
         (Some (mkSet (Some (py "Jungle")) []))
         (Some (Some (py "60"))) (Some (py "Common"))
         (Some (mkTcg (Some [(py "holofoil",
                              JDict [(py "low", JNum 1);
                                     (py "market", market)])])
                      (Some (py "2024/01/01")))).

Definition card_server (market : json)
  : nat -> request -> outcome card_response :=
  fun _ req =>
    match req with
    | ReqCard card_id =>
        HttpResponse 200
          (Some (mkCardResponse (Some (sample_card card_id market))))
    | _ => HttpResponse 404 None
    end.

(** A card search that finds the same two cards for every query, on one
    page. *)
Definition two_cards : nat -> request -> outcome (page_response card_data) :=
  fun _ _ =>
    HttpResponse 200
      (Some (mkPage (Some [sample_card (py "jungle-60") JNull;
                           sample_card (py "jungle-61") JNull])
                    (Some 2) (Some 2))).

(** A listing endpoint that answers every request with the status [c]. *)
Definition failing_pages {A} (c : Z)
  : nat -> request -> outcome (page_response A) :=
  fun _ _ => HttpResponse c None.

(** A card lookup that always fails at the transport level. *)
Definition cards_unreachable : nat -> request -> outcome card_response :=
  fun _ _ => HttpRaises.

(** A length that [time.sleep] accepts on every platform clock of 64-bit
    nanoseconds, in seconds. *)
Definition SLEEP_LIMIT : Q := 9000000000.

(** The delay, the powers of the factor and the waits that a call with
    [max_retries] can compute are non-negative and within [SLEEP_LIMIT]:
    no [time.sleep] and no float operation of the retry loop overflows. *)
Definition waits_within (delay factor : Q) (max_retries : Z) : Prop :=
  (0 <= delay)%Q /\ (delay <= SLEEP_LIMIT)%Q /\ (0 <= factor)%Q
  /\ forall k, 0 <= k <= max_retries ->
       (Qpower factor k <= SLEEP_LIMIT)%Q
       /\ (backoff delay factor k <= SLEEP_LIMIT)%Q.

(** The tests that end the sets loop at [page], whatever was accumulated:
    no data, an empty page, or [count * page >= totalCount]. *)
Definition exits {A} (page : Z) (response_data : option (page_response A))
  : bool :=
  no_data response_data
  || is_empty (get_data response_data)
  || match counts response_data with
     | Some (c, t) => c * page >=? t
     | None => false
     end.

(** * Properties *)

(** ** A weakest-precondition reading of the effect monad *)

Lemma post_ret {A} (a : A) s Qr Qe : Qr a s -> post (ret a) s Qr Qe.
Proof. intro H; exact H. Qed.

Lemma post_raise {A} e s (Qr : A -> state -> Prop) Qe :
  Qe s -> post (raise e) s Qr Qe.
Proof. intro H; exact H. Qed.

Lemma post_bind {A B} (m : M A) (k : A -> M B) s Qr Qe :
  post m s (fun a s' => post (k a) s' Qr Qe) Qe ->
  post (bind m k) s Qr Qe.
Proof.
  unfold post, bind. destruct (m s); auto.
Qed.

Lemma post_try {A} (m : M A) h s Qr Qe :
  post m s Qr (fun s' => forall e, post (h e) s' Qr Qe) ->
  post (try_except m h) s Qr Qe.
Proof.
  unfold post, try_except. destruct (m s) as [a s'|e s'|]; auto.
  intro H. apply H.
Qed.

Lemma post_weaken {A} (m : M A) s (Qr Qr' : A -> state -> Prop)
      (Qe Qe' : state -> Prop) :
  (forall a s', Qr a s' -> Qr' a s') ->
  (forall s', Qe s' -> Qe' s') ->
  post m s Qr Qe -> post m s Qr' Qe'.
Proof.
  unfold post. intros Hr He. destruct (m s); auto.
Qed.

Lemma post_final {A} (m : M A) s (Q : state -> Prop) :
  post m s (fun _ => Q) Q -> exists s', final (m s) = Some s' /\ Q s'.
Proof.
  unfold post, final. destruct (m s) as [a s'|e s'|]; intro H.
  - exists s'; auto.
  - exists s'; auto.
  - destruct H.
Qed.

(** ** The log only grows *)

Lemma calls_app l1 l2 : calls (l1 ++ l2) = calls l1 ++ calls l2.
Proof. unfold calls. apply flat_map_app. Qed.

Lemma sleeps_app l1 l2 : sleeps (l1 ++ l2) = sleeps l1 ++ sleeps l2.
Proof. unfold sleeps. apply flat_map_app. Qed.

Lemma extends_refl s : extends s s.
Proof. exists []. rewrite app_nil_r. auto. Qed.

Lemma extends_trans s1 s2 s3 :
  extends s1 s2 -> extends s2 s3 -> extends s1 s3.
Proof.
  intros [l1 [H1 C1]] [l2 [H2 C2]]. exists (l1 ++ l2). split.
  - rewrite H2, H1, app_assoc. reflexivity.
  - rewrite calls_app, C1, C2. reflexivity.
Qed.

Lemma extends_calls s s' : extends s s' -> calls (log s') = calls (log s).
Proof.
  intros [l [H C]]. rewrite H, calls_app, C, app_nil_r. reflexivity.
Qed.

Lemma post_sleep t s (Qr : unit -> state -> Prop) (Qe : state -> Prop) :
  (forall s', extends s s' -> Qr tt s') -> Qe s ->
  post (sleep t) s Qr Qe.
Proof.
  intros Hr He. unfold sleep. destruct (Qle_bool 0 t).
  - unfold post, emit. apply Hr. exists [EvSleep t]. auto.
  - apply post_raise, He.
Qed.

Section FetcherFacts.

Variable B : Type.
Variable http : nat -> request -> outcome B.
Variable rate_limit_delay : Q.

Lemma post_requests_get r s (Qr : response B -> state -> Prop)
      (Qe : state -> Prop) :
  (forall resp s', extends s s' -> Qr resp s') ->
  (forall s', extends s s' -> Qe s') ->
  post (requests_get B http r) s Qr Qe.
Proof.
  intros Hr He. unfold post, requests_get.
  assert (E : extends s (mkState (S (sent s)) (log s ++ [EvGet r])))
    by (exists [EvGet r]; auto).
  destruct (http (sent s) r); [apply He, E | apply Hr, E].
Qed.

(** With enough fuel for the remaining attempts the retry loop stops, and
    it only adds requests and sleeps to the log. *)
Lemma safe_api_call_loop_post r max_retries backoff_factor :
  forall fuel retries s,
    (Z.to_nat (max_retries + 1 - retries) < fuel)%nat ->
    post (safe_api_call_loop B http rate_limit_delay fuel r
                             max_retries backoff_factor retries) s
         (fun _ s' => extends s s') (fun s' => extends s s').
Proof.
  induction fuel as [|fuel IH]; intros retries s Hfuel; [lia|].
  cbn [safe_api_call_loop].
  destruct (retries <=? max_retries) eqn:Hle;
    [|apply post_ret, extends_refl].
  apply Z.leb_le in Hle.
  assert (Hrec : forall s1, extends s s1 ->
            post (safe_api_call_loop B http rate_limit_delay fuel r
                    max_retries backoff_factor (retries + 1)) s1
                 (fun _ s' => extends s s') (fun s' => extends s s')).
  { intros s1 E1. eapply post_weaken; [| |apply IH; lia].
    - intros a s' E. eapply extends_trans; eauto.
    - intros s' E. eapply extends_trans; eauto. }
  apply post_bind.
  apply post_weaken with
    (Qr := fun f s1 => extends s s1 /\
             match f with
             | Return _ _ => True
             | Continue _ k | Fallthrough _ k => k = retries + 1
             end)
    (Qe := fun s1 => extends s s1).
  - intros [v|k|k] s1 [E Hk].
    + apply post_ret, E.
    + subst k. apply Hrec, E.
    + subst k. apply post_bind, post_sleep; [|exact E].
      intros s2 E2. apply Hrec. eapply extends_trans; eauto.
  - auto.
  - assert (Hh : forall s1, extends s s1 -> forall e : exn,
              post (let retries0 := retries + 1 in
                    if retries0 <=? max_retries
                    then sleep (backoff rate_limit_delay backoff_factor
                                        retries0) ;;;
                         ret (Fallthrough B retries0)
                    else ret (Return B None)) s1
                   (fun f s2 => extends s s2 /\
                      match f with
                      | Return _ _ => True
                      | Continue _ k | Fallthrough _ k => k = retries + 1
                      end)
                   (fun s2 => extends s s2)).
    { intros s1 E1 _. cbv zeta.
      destruct (retries + 1 <=? max_retries).
      - apply post_bind, post_sleep; [|exact E1].
        intros s2 E2. apply post_ret. split; [|reflexivity].
        eapply extends_trans; eauto.
      - apply post_ret. auto. }
    apply post_try, post_bind, post_requests_get; [|exact Hh].
    intros resp s1 E1.
    destruct (status_code resp =? 200).
    + apply post_bind. unfold response_json.
      destruct (json_body resp).
      * apply post_ret, post_ret. auto.
      * apply post_raise, Hh, E1.
    + destruct (status_code resp =? 429).
      * apply post_bind, post_sleep; [|apply Hh, E1].
        intros s2 E2. apply post_ret. split; [|reflexivity].
        eapply extends_trans; eauto.
      * apply post_ret. auto.
Qed.

(** [safe_api_call] always stops; it records its call and otherwise only
    requests and sleeps. *)
Lemma safe_api_call_post r max_retries backoff_factor s :
  post (safe_api_call B http rate_limit_delay r max_retries backoff_factor)
       s
       (fun _ s' => calls (log s') = calls (log s) ++ [r])
       (fun s' => calls (log s') = calls (log s) ++ [r]).
Proof.
  unfold safe_api_call. apply post_bind. unfold post at 1, emit.
  eapply post_weaken; [| |apply safe_api_call_loop_post; lia].
  - intros a s' E. apply extends_calls in E. rewrite E. cbn [log].
    rewrite calls_app. reflexivity.
  - intros s' E. apply extends_calls in E. rewrite E. cbn [log].
    rewrite calls_app. reflexivity.
Qed.

End FetcherFacts.

(** ** The retry loop, one iteration at a time *)

Section FetcherSteps.

Variable B : Type.
Variable http : nat -> request -> outcome B.
Variable rate_limit_delay : Q.

(** A 200 response with a JSON body is returned at once: no sleep. *)
Lemma safe_api_call_loop_200 fuel r max_retries backoff_factor retries s b :
  http (sent s) r = HttpResponse 200 (Some b) ->
  retries <= max_retries ->
  safe_api_call_loop B http rate_limit_delay (S fuel) r
                     max_retries backoff_factor retries s
  = Ret (Some b) (mkState (S (sent s)) (log s ++ [EvGet r])).
Proof.
  intros H Hle. apply Z.leb_le in Hle. cbn [safe_api_call_loop].
  rewrite Hle. unfold bind, try_except, requests_get. rewrite H.
  reflexivity.
Qed.

(** A 429 response: sleep [delay * factor ** retries], then retry with
    [retries + 1]; the fixed delay at the end of the body is skipped. *)
Lemma safe_api_call_loop_429 fuel r max_retries backoff_factor retries s b :
  http (sent s) r = HttpResponse 429 b ->
  retries <= max_retries ->
  Qle_bool 0 (backoff rate_limit_delay backoff_factor retries) = true ->
  safe_api_call_loop B http rate_limit_delay (S fuel) r
                     max_retries backoff_factor retries s
  = safe_api_call_loop B http rate_limit_delay fuel r
      max_retries backoff_factor (retries + 1)
      (mkState (S (sent s))
         (log s ++ [EvGet r;
                    EvSleep (backoff rate_limit_delay backoff_factor
                                     retries)])).
Proof.
  intros H Hle Hpos. apply Z.leb_le in Hle. cbn [safe_api_call_loop].
  rewrite Hle. unfold bind at 1. unfold try_except, bind at 1.
  unfold requests_get. rewrite H. cbn [status_code Z.eqb Pos.eqb].
  unfold bind at 1. unfold sleep. rewrite Hpos. unfold emit, ret.
  cbn [sent log]. rewrite <- app_assoc. reflexivity.
Qed.

Lemma safe_api_call_200 r max_retries backoff_factor s b :
  http (sent s) r = HttpResponse 200 (Some b) ->
  0 <= max_retries ->
  safe_api_call B http rate_limit_delay r max_retries backoff_factor s
  = Ret (Some b) (mkState (S (sent s)) (log s ++ [EvCall r; EvGet r])).
Proof.
  intros H Hle. unfold safe_api_call, bind, emit.
  rewrite safe_api_call_loop_200 with (b := b); auto.
  cbn [sent log]. rewrite <- app_assoc. reflexivity.
Qed.

End FetcherSteps.

(** C1 (as amended).  With [rate_limit_delay = 1.0] and the default
    [max_retries = 3], [backoff_factor = 2]: when the first three responses
    are HTTP 429, [safe_api_call] stops, and the first three waits are 1, 2
    and 4 seconds, in that order: the wait is [delay * factor ** retries]
    with [retries] counted from 0 and incremented after the sleep.  If the
    fourth response is a success, these are all the waits; if it is a 429
    again, a wait of 8 follows and the retries are exhausted ([None]). *)
Theorem backoff_schedule_429 (B : Type) (http : nat -> request -> outcome B)
        (r : request) :
  (forall n, (n < 3)%nat -> exists b, http n r = HttpResponse 429 b) ->
  (exists s',
     final (safe_api_call B http 1 r 3 2 init) = Some s'
     /\ firstn 3 (sleeps (log s')) = [1; 2; 4]%Q)
  /\ (forall b, http 3%nat r = HttpResponse 200 (Some b) ->
      exists s',
        safe_api_call B http 1 r 3 2 init = Ret (Some b) s'
        /\ sleeps (log s') = [1; 2; 4]%Q)
  /\ (forall b, http 3%nat r = HttpResponse 429 b ->
      exists s',
        safe_api_call B http 1 r 3 2 init = Ret None s'
        /\ sleeps (log s') = [1; 2; 4; 8]%Q).
Proof.
  intro H.
  destruct (H 0%nat) as [b0 H0]; [lia|].
  destruct (H 1%nat) as [b1 H1]; [lia|].
  destruct (H 2%nat) as [b2 H2]; [lia|].
  unfold safe_api_call, bind, emit.
  change (Z.to_nat (3 + 1)) with 4%nat.
  rewrite safe_api_call_loop_429 with (b := b0);
    [|exact H0|lia|reflexivity].
  rewrite safe_api_call_loop_429 with (b := b1);
    [|exact H1|lia|reflexivity].
  rewrite safe_api_call_loop_429 with (b := b2);
    [|exact H2|lia|reflexivity].
  cbn [sent log]. split; [|split].
  - match goal with
    | |- context [safe_api_call_loop _ _ _ ?f _ ?m ?bf ?k ?s] =>
        destruct (post_final _ _ _
                    (safe_api_call_loop_post B http 1 r m bf f k s
                       ltac:(vm_compute; lia)))
          as [s' [Hfin [l [Hlog _]]]]
    end.
    exists s'. split; [exact Hfin|].
    rewrite Hlog, sleeps_app. reflexivity.
  - intros b H3. eexists. split.
    + apply safe_api_call_loop_200; [exact H3|lia].
    + reflexivity.
  - intros b H3. eexists. split.
    + rewrite safe_api_call_loop_429 with (b := b);
        [|exact H3|lia|reflexivity].
      reflexivity.
    + reflexivity.
Qed.

Lemma backoff_schedule_429_witness :
  (exists s',
     final (safe_api_call unit three429 1 (ReqSets 1 250) 3 2 init) = Some s'
     /\ firstn 3 (sleeps (log s')) = [1; 2; 4]%Q)
  /\ (forall b, three429 3%nat (ReqSets 1 250) = HttpResponse 200 (Some b) ->
      exists s',
        safe_api_call unit three429 1 (ReqSets 1 250) 3 2 init
        = Ret (Some b) s'
        /\ sleeps (log s') = [1; 2; 4]%Q)
  /\ (forall b, three429 3%nat (ReqSets 1 250) = HttpResponse 429 b ->
      exists s',
        safe_api_call unit three429 1 (ReqSets 1 250) 3 2 init = Ret None s'
        /\ sleeps (log s') = [1; 2; 4; 8]%Q).
Proof.
  apply (backoff_schedule_429 unit three429 (ReqSets 1 250)).
  intros n Hn. exists None.
  destruct n as [|[|[|n]]]; try reflexivity. lia.
Defined.

(** C1 as stated fails: after three 429 responses followed by a success,
    the three waits are not 2, 4, 8. *)
Lemma backoff_schedule_429_not_2_4_8 :
  ~ (exists s',
       final (safe_api_call unit three429 1 (ReqSets 1 250) 3 2 init)
       = Some s'
       /\ firstn 3 (sleeps (log s')) = [2; 4; 8]%Q).
Proof.
  intros [s' [Hfin Hs]]. vm_compute in Hfin. inversion Hfin; subst s'.
  vm_compute in Hs. discriminate Hs.
Qed.

(** The exception branch increments [retries] before it computes the wait:
    its waits are 2, 4, 8, each followed by the fixed delay. *)
Lemma exception_path_waits :
  exists s',
    safe_api_call unit unreachable 1 (ReqSets 1 250) 3 2 init = Ret None s'
    /\ sleeps (log s') = [2; 1; 4; 1; 8; 1]%Q
    /\ List.length (gets (log s')) = 4%nat.
Proof. eexists. repeat split. Qed.

(** C2 (the code at the failing input).  Two calls in a row, each answered
    by HTTP 200: the log holds the two requests and no sleep at all; the
    [time.sleep(self.rate_limit_delay)] at the end of the loop body is not
    reached on the success path. *)
Theorem success_path_skips_rate_limit_delay (rate_limit_delay : Q)
        (r1 r2 : request) :
  (safe_api_call unit ok200 rate_limit_delay r1 3 2 ;;;
   safe_api_call unit ok200 rate_limit_delay r2 3 2) init
  = Ret (Some tt) (mkState 2 [EvCall r1; EvGet r1; EvCall r2; EvGet r2]).
Proof. reflexivity. Qed.

(** ** The paginators *)

(** The sets loop goes on to the next page exactly when none of its exits
    applies: the fetch gave data, the page is not empty, and the
    [count * page >= totalCount] test, if the fields are there, fails. *)
Lemma sets_page_next_iff page all_sets response_data :
  (exists all_sets', sets_page page all_sets response_data = SNext all_sets')
  <-> (no_data response_data = false
       /\ get_data response_data <> []
       /\ forall c t, counts response_data = Some (c, t) -> c * page < t).
Proof.
  unfold sets_page. split.
  - intros [acc H]. destruct (no_data response_data).
    + destruct (page =? 1); discriminate H.
    + destruct (get_data response_data) as [|x l]; [discriminate H|].
      split; [reflexivity|]. split; [discriminate|].
      intros c t Hc. rewrite Hc in H. cbn [is_empty] in H.
      destruct (c * page >=? t) eqn:E; [discriminate H|].
      rewrite Z.geb_leb in E. apply Z.leb_gt in E. exact E.
  - intros [Hn [Hd Hc]]. rewrite Hn.
    destruct (get_data response_data) as [|x l]; [contradiction|].
    cbn [is_empty]. destruct (counts response_data) as [[c t]|].
    + specialize (Hc c t eq_refl).
      assert (E : (c * page >=? t) = false)
        by (rewrite Z.geb_leb; apply Z.leb_gt; exact Hc).
      rewrite E. eauto.
    + eauto.
Qed.

Lemma sets_page_no_data all_sets response_data :
  no_data response_data = true ->
  sets_page 1 all_sets response_data = SReturnEmpty.
Proof. intro H. unfold sets_page. rewrite H. reflexivity. Qed.

Lemma sets_page_not_empty page all_sets response_data :
  no_data response_data = false \/ page <> 1 ->
  sets_page page all_sets response_data <> SReturnEmpty.
Proof.
  intro H. unfold sets_page.
  destruct (no_data response_data).
  - destruct H as [H|H]; [discriminate H|].
    apply Z.eqb_neq in H. rewrite H. discriminate.
  - destruct (is_empty _); [discriminate|].
    destruct (counts response_data) as [[c t]|]; [|discriminate].
    destruct (c * page >=? t); discriminate.
Qed.

Section PaginatorFacts.

Variable rate_limit_delay : Q.

(** After page 1 the sets loop can only return the pair. *)
Lemma get_all_set_names_loop_pair http :
  forall fuel page all_sets s r s',
    1 < page ->
    get_all_set_names_loop rate_limit_delay http fuel page all_sets s
    = Ret r s' ->
    exists all, r = RetPair (map sd_name all) all.
Proof.
  induction fuel as [|fuel IH]; intros page acc s r s' Hp H;
    [discriminate H|].
  cbn [get_all_set_names_loop] in H. unfold bind in H.
  destruct (safe_api_call _ http rate_limit_delay (ReqSets page 250) 3 2 s)
    as [rd s1|e s1|]; try discriminate H.
  pose proof (sets_page_not_empty page acc rd) as Hne.
  destruct (sets_page page acc rd) as [|acc'|acc'].
  - exfalso. apply Hne; [right; lia|reflexivity].
  - inversion H; subst. eauto.
  - eapply IH; [|exact H]. lia.
Qed.

(** While no exit applies the sets loop uses up any amount of fuel. *)
Lemma get_all_set_names_loop_endless http :
  (forall n r, keeps_going (http n r)) ->
  forall fuel page all_sets s,
    1 <= page ->
    get_all_set_names_loop rate_limit_delay http fuel page all_sets s
    = OutOfFuel.
Proof.
  intro H. induction fuel as [|fuel IH]; intros page acc s Hp;
    [reflexivity|].
  cbn [get_all_set_names_loop]. unfold bind.
  destruct (H (sent s) (ReqSets page 250)) as [pg [Heq Hnext]].
  rewrite safe_api_call_200 with (b := pg); [|exact Heq|lia].
  destruct (Hnext page acc Hp) as [acc' Hacc]. rewrite Hacc.
  apply IH. lia.
Qed.

(** The card search stops, after at most one call per remaining page. *)
Lemma search_cards_loop_post A http query max_pages :
  forall fuel page all_cards s,
    (Z.to_nat (max_pages + 1 - page) < fuel)%nat ->
    post (search_cards_loop rate_limit_delay A http fuel query max_pages
                            page all_cards) s
         (fun _ s' => (List.length (calls (log s'))
                       <= List.length (calls (log s))
                          + Z.to_nat (max_pages + 1 - page))%nat)
         (fun s' => (List.length (calls (log s'))
                     <= List.length (calls (log s))
                        + Z.to_nat (max_pages + 1 - page))%nat).
Proof.
  induction fuel as [|fuel IH]; intros page acc s Hfuel; [lia|].
  cbn [search_cards_loop].
  destruct (page <=? max_pages) eqn:Hle; [|apply post_ret; lia].
  apply Z.leb_le in Hle. apply post_bind.
  eapply post_weaken; [| |apply safe_api_call_post].
  - intros rd s1 Hc. cbv beta in Hc.
    assert (Hlen : List.length (calls (log s1))
                   = S (List.length (calls (log s))))
      by (rewrite Hc, length_app; cbn; lia).
    destruct (cards_page acc rd) as [acc'|acc'].
    + apply post_ret. lia.
    + eapply post_weaken; [| |apply IH; lia]; cbv beta; intros; lia.
  - intros s1 Hc. cbv beta in Hc. rewrite Hc, length_app. cbn. lia.
Qed.

End PaginatorFacts.

(** C7.  Every fetch succeeds and each page reports [count = 250],
    [totalCount = 500] with 250 records: both loops issue exactly two page
    requests (pages 1 and 2, one HTTP request each) and return the 500
    records; the sets loop stops on [250 * 2 >= 500], the card search on
    [len(all_cards) = 500 >= 500]. *)
Theorem pagination_completes_in_two_pages
        (rate_limit_delay : Q)
        (hs : nat -> request -> outcome (page_response set_descriptor))
        (s1 s2 : list set_descriptor) (fuel : nat)
        (A : Type) (hc : nat -> request -> outcome (page_response A))
        (query : str) (c1 c2 : list A) :
  List.length s1 = 250%nat -> List.length s2 = 250%nat ->
  hs 0%nat (ReqSets 1 250)
  = HttpResponse 200 (Some (mkPage (Some s1) (Some 250) (Some 500))) ->
  hs 1%nat (ReqSets 2 250)
  = HttpResponse 200 (Some (mkPage (Some s2) (Some 250) (Some 500))) ->
  (2 <= fuel)%nat ->
  List.length c1 = 250%nat -> List.length c2 = 250%nat ->
  hc 0%nat (ReqCards query 1 250)
  = HttpResponse 200 (Some (mkPage (Some c1) (Some 250) (Some 500))) ->
  hc 1%nat (ReqCards query 2 250)
  = HttpResponse 200 (Some (mkPage (Some c2) (Some 250) (Some 500))) ->
  (exists s',
     get_all_set_names rate_limit_delay hs fuel init
     = Ret (RetPair (map sd_name (s1 ++ s2)) (s1 ++ s2)) s'
     /\ calls (log s') = [ReqSets 1 250; ReqSets 2 250]
     /\ gets (log s') = [ReqSets 1 250; ReqSets 2 250]
     /\ List.length (s1 ++ s2) = 500%nat)
  /\
  (exists s',
     search_cards rate_limit_delay A hc query 10 init = Ret (c1 ++ c2) s'
     /\ calls (log s') = [ReqCards query 1 250; ReqCards query 2 250]
     /\ gets (log s') = [ReqCards query 1 250; ReqCards query 2 250]
     /\ List.length (c1 ++ c2) = 500%nat).
Proof.
  intros Ls1 Ls2 Hs1 Hs2 Hfuel Lc1 Lc2 Hc1 Hc2. split.
  - destruct fuel as [|[|fuel]]; try lia.
    eexists. split; [|split; [|split]].
    + unfold get_all_set_names. cbn [get_all_set_names_loop].
      unfold bind at 1.
      rewrite safe_api_call_200 with (b := mkPage (Some s1) (Some 250) (Some 500));
        [|exact Hs1|lia].
      destruct s1 as [|x1 s1]; [discriminate Ls1|].
      cbn [sets_page no_data get_data data counts count totalCount
           is_empty app].
      change (250 * 1 >=? 500) with false. cbv iota.
      change (1 + 1) with 2. unfold bind at 1.
      rewrite safe_api_call_200 with (b := mkPage (Some s2) (Some 250) (Some 500));
        [|exact Hs2|lia].
      destruct s2 as [|x2 s2]; [discriminate Ls2|].
      cbn [sets_page no_data get_data data counts count totalCount
           is_empty Z.eqb].
      change (250 * 2 >=? 500) with true. cbv iota.
      reflexivity.
    + reflexivity.
    + reflexivity.
    + rewrite length_app. lia.
  - eexists. split; [|split; [|split]].
    + unfold search_cards. change (Z.to_nat 10) with 10%nat.
      cbn [search_cards_loop]. change (1 <=? 10) with true. cbv iota.
      unfold bind at 1.
      rewrite safe_api_call_200 with (b := mkPage (Some c1) (Some 250) (Some 500));
        [|exact Hc1|lia].
      destruct c1 as [|x1 c1]; [discriminate Lc1|].
      cbn [cards_page no_data get_data data counts count totalCount
           is_empty negb andb app].
      assert (E1 : (Z.of_nat (List.length (x1 :: c1)) >=? 500) = false)
        by (rewrite Lc1; reflexivity).
      rewrite E1. change (1 + 1) with 2. change (2 <=? 10) with true.
      cbv iota. unfold bind at 1.
      rewrite safe_api_call_200 with (b := mkPage (Some c2) (Some 250) (Some 500));
        [|exact Hc2|lia].
      destruct c2 as [|x2 c2]; [discriminate Lc2|].
      cbn [cards_page no_data get_data data counts count totalCount
           is_empty negb andb].
      assert (E2 : (Z.of_nat (List.length ((x1 :: c1) ++ x2 :: c2)) >=? 500)
                   = true)
        by (rewrite length_app, Lc1, Lc2; reflexivity).
      rewrite E2. reflexivity.
    + reflexivity.
    + reflexivity.
    + rewrite length_app. lia.
Qed.

Lemma pagination_completes_in_two_pages_witness :
  (exists s',
     get_all_set_names 1 (two_pages (mkSet None [])) 2 init
     = Ret (RetPair (map sd_name (repeat (mkSet None []) 250
                                  ++ repeat (mkSet None []) 250))
                    (repeat (mkSet None []) 250 ++ repeat (mkSet None []) 250))
           s'
     /\ calls (log s') = [ReqSets 1 250; ReqSets 2 250]
     /\ gets (log s') = [ReqSets 1 250; ReqSets 2 250]
     /\ List.length (repeat (mkSet None []) 250 ++ repeat (mkSet None []) 250)
        = 500%nat)
  /\
  (exists s',
     search_cards 1 unit (two_pages tt) [] 10 init
     = Ret (repeat tt 250 ++ repeat tt 250) s'
     /\ calls (log s') = [ReqCards [] 1 250; ReqCards [] 2 250]
     /\ gets (log s') = [ReqCards [] 1 250; ReqCards [] 2 250]
     /\ List.length (repeat tt 250 ++ repeat tt 250) = 500%nat).
Proof.
  apply (pagination_completes_in_two_pages
           1 (two_pages (mkSet None [])) (repeat (mkSet None []) 250)
           (repeat (mkSet None []) 250) 2
           unit (two_pages tt) [] (repeat tt 250) (repeat tt 250));
    first [reflexivity | lia].
Defined.

(** C8.  The card search with its default ceiling of 10 pages stops against
    any server, after at most 10 calls of the fetcher.  The sets loop has no
    ceiling: it goes on to the next page exactly when the fetch gave data,
    the page is not empty and the [count * page >= totalCount] test does not
    hold, and against a server on which this is always so it does not stop
    within any number of iterations. *)
Theorem search_cards_bounded_sets_listing_unbounded
        (rate_limit_delay : Q) (A : Type)
        (hc : nat -> request -> outcome (page_response A))
        (query : str) (s : state)
        (hs : nat -> request -> outcome (page_response set_descriptor)) :
  (forall n r, keeps_going (hs n r)) ->
  (exists s',
     final (search_cards rate_limit_delay A hc query 10 s) = Some s'
     /\ (List.length (calls (log s')) <= List.length (calls (log s)) + 10)%nat)
  /\ (forall fuel, get_all_set_names rate_limit_delay hs fuel s = OutOfFuel)
  /\ (forall page all_sets response_data,
        (exists all_sets',
           sets_page page all_sets response_data = SNext all_sets')
        <-> (no_data response_data = false
             /\ get_data response_data <> []
             /\ forall c t, counts response_data = Some (c, t) ->
                            c * page < t)).
Proof.
  intro H. split; [|split].
  - apply post_final. unfold search_cards.
    apply (search_cards_loop_post rate_limit_delay A hc query 10
             (S (Z.to_nat 10)) 1 [] s).
    lia.
  - intro fuel. apply get_all_set_names_loop_endless; [exact H|lia].
  - apply sets_page_next_iff.
Qed.

Lemma search_cards_bounded_sets_listing_unbounded_witness :
  (exists s',
     final (search_cards 1 unit (two_pages tt) [] 10 init) = Some s'
     /\ (List.length (calls (log s')) <= List.length (calls (log init)) + 10)%nat)
  /\ (forall fuel, get_all_set_names 1 endless fuel init = OutOfFuel)
  /\ (forall page all_sets response_data,
        (exists all_sets',
           sets_page page all_sets response_data = SNext all_sets')
        <-> (no_data response_data = false
             /\ get_data response_data <> []
             /\ forall c t, counts response_data = Some (c, t) ->
                            c * page < t)).
Proof.
  apply (search_cards_bounded_sets_listing_unbounded
           1 unit (two_pages tt) [] init endless).
  intros n r. exists (mkPage (Some [mkSet None []]) None None).
  split; [reflexivity|]. intros page all_sets _.
  exists (all_sets ++ [mkSet None []]). reflexivity.
Defined.

(** ** The resolver *)

Lemma str_eqb_eq a b : str_eqb a b = true <-> a = b.
Proof.
  revert b. induction a as [|x a IH]; intros [|y b]; cbn;
    try (split; [discriminate|discriminate]); [tauto|].
  rewrite andb_true_iff, N.eqb_eq, IH. split.
  - intros [-> ->]. reflexivity.
  - intro H. inversion H. auto.
Qed.

Lemma mem_In x l : mem x l = true <-> In x l.
Proof.
  unfold mem. rewrite existsb_exists. split.
  - intros [y [Hy E]]. apply str_eqb_eq in E. subst y. exact Hy.
  - intro H. exists x. split; [exact H|]. apply str_eqb_eq. reflexivity.
Qed.

Lemma first_such_In {A} (p : A -> bool) l x : first_such p l x -> In x l.
Proof.
  intros [l1 [l2 [H _]]]. subst l. apply in_or_app. right. left. reflexivity.
Qed.

Lemma first_best_In {A} (score : A -> nat) l x : first_best score l x -> In x l.
Proof.
  intros [l1 [l2 [H _]]]. subst l. apply in_or_app. right. left. reflexivity.
Qed.

Lemma first_such_cons {A} (p : A -> bool) y l x :
  p y = false -> first_such p l x -> first_such p (y :: l) x.
Proof.
  intros Hy [l1 [l2 [H [Hx Hl1]]]]. exists (y :: l1), l2. subst l.
  split; [reflexivity|]. split; [exact Hx|].
  intros z [Hz|Hz]; [subst z; exact Hy|auto].
Qed.

Lemma first_such_here {A} (p : A -> bool) x l :
  p x = true -> first_such p (x :: l) x.
Proof.
  intro Hx. exists [], l. split; [reflexivity|]. split; [exact Hx|].
  intros y [].
Qed.

Lemma find_first_such {A} (p : A -> bool) l x :
  find p l = Some x -> first_such p l x.
Proof.
  induction l as [|y l IH]; cbn; [discriminate|].
  destruct (p y) eqn:Hy.
  - intro H. inversion H; subst. apply first_such_here, Hy.
  - intro H. apply first_such_cons; auto.
Qed.

Lemma filter_head_first_such {A} (p : A -> bool) l x rest :
  filter p l = x :: rest -> first_such p l x.
Proof.
  induction l as [|y l IH]; cbn; [discriminate|].
  destruct (p y) eqn:Hy.
  - intro H. inversion H; subst. apply first_such_here, Hy.
  - intro H. apply first_such_cons; auto.
Qed.

(** [split] gives at least one piece, so [split(...)[0]] is defined. *)
Lemma split_scan_cons sep s :
  forall skip cur, exists p0 rest, split_scan sep s skip cur = p0 :: rest.
Proof.
  induction s as [|c s IH]; intros skip cur; cbn [split_scan]; [eauto|].
  destruct skip as [|k]; [|apply IH].
  destruct (startswith sep (c :: s)); [eauto|apply IH].
Qed.

Lemma promo_match_total target_name s :
  promo_match target_name s = inr (promo_true target_name s).
Proof.
  unfold promo_true, promo_match.
  change (split BLACK_STAR target_name)
    with (@inr exn _ (split_scan BLACK_STAR target_name 0 [])).
  destruct (split_scan_cons BLACK_STAR target_name 0%nat [])
    as [p0 [rest E]].
  rewrite E. reflexivity.
Qed.

Lemma promo_scan_spec target_name l :
  match promo_scan target_name l with
  | inr (Some s) => first_such (promo_true target_name) l s
  | inr None => True
  | inl _ => False
  end.
Proof.
  induction l as [|y l IH]; cbn [promo_scan]; [exact I|].
  rewrite promo_match_total. cbn [bind_exn].
  destruct (promo_true target_name y) eqn:Hy.
  - apply first_such_here, Hy.
  - destruct (promo_scan target_name l) as [e|[s|]]; auto.
    apply first_such_cons; auto.
Qed.

Section ResolverFacts.

Variable lower : str -> str.
Variable target_terms : list str.

Let score := matched_terms lower target_terms.

Lemma token_step_inv pre acc x :
  token_inv score pre acc ->
  token_inv score (pre ++ [x]) (token_step lower target_terms acc x).
Proof.
  destruct acc as [best most]. unfold token_inv, token_step.
  fold score. cbn [fst snd]. intro H.
  destruct (most <? score x)%nat eqn:E; cbn [fst snd].
  - apply Nat.ltb_lt in E. split; [|reflexivity].
    exists pre, []. split; [reflexivity|]. split; [lia|].
    split; [|intros y []].
    intros y Hy. destruct best as [b|].
    + destruct H as [[l1 [l2 [Hp [Hb [H1 H2]]]]] Hm]. subst pre.
      apply in_app_or in Hy. destruct Hy as [Hy|[Hy|Hy]].
      * specialize (H1 y Hy). lia.
      * subst y. lia.
      * specialize (H2 y Hy). lia.
    + destruct H as [Hm H0]. rewrite (H0 y Hy). lia.
  - apply Nat.ltb_ge in E. destruct best as [b|].
    + destruct H as [[l1 [l2 [Hp [Hb [H1 H2]]]]] Hm]. split; [|exact Hm].
      exists l1, (l2 ++ [x]). subst pre.
      split; [rewrite <- app_assoc; reflexivity|].
      split; [exact Hb|]. split; [exact H1|].
      intros y Hy. apply in_app_or in Hy. destruct Hy as [Hy|[Hy|[]]].
      * apply H2, Hy.
      * subst y. lia.
    + destruct H as [Hm H0]. split; [exact Hm|].
      intros y Hy. apply in_app_or in Hy. destruct Hy as [Hy|[Hy|[]]].
      * apply H0, Hy.
      * subst y. lia.
Qed.

Lemma token_fold_inv l :
  forall pre acc,
    token_inv score pre acc ->
    token_inv score (pre ++ l)
              (fold_left (token_step lower target_terms) l acc).
Proof.
  induction l as [|x l IH]; intros pre acc H; cbn [fold_left].
  - rewrite app_nil_r. exact H.
  - replace (pre ++ x :: l) with ((pre ++ [x]) ++ l)
      by (rewrite <- app_assoc; reflexivity).
    apply IH, token_step_inv, H.
Qed.

End ResolverFacts.

(** The token tier returns the first candidate with the highest positive
    count, or nothing when every count is 0. *)
Lemma token_overlap_spec lower target_name l :
  match token_overlap lower target_name l with
  | Some s =>
      first_best (matched_terms lower (re_split (lower target_name))) l s
  | None =>
      forall y, In y l ->
        matched_terms lower (re_split (lower target_name)) y = 0%nat
  end.
Proof.
  unfold token_overlap.
  pose proof (token_fold_inv lower (re_split (lower target_name)) l
                [] (None, 0%nat)) as H.
  cbn [app] in H. unfold token_inv in H.
  destruct (fst (fold_left _ l (None, 0%nat))) as [b|].
  - apply H. cbn. split; [reflexivity|]. intros y [].
  - apply H. cbn. split; [reflexivity|]. intros y [].
Qed.

(** What [find_closest_set_name] returns, tier by tier.  It never raises. *)
Lemma find_closest_set_name_cases lower target_name l :
  exists r,
    find_closest_set_name lower target_name l = inr r
    /\ match r with
       | None => True
       | Some s =>
           (In target_name l /\ s = target_name)
           \/ first_such (same_lower lower target_name) l s
           \/ first_such (promo_true target_name) l s
           \/ first_such (partial_match lower target_name) l s
           \/ first_best
                (matched_terms lower (re_split (lower target_name))) l s
       end.
Proof.
  unfold find_closest_set_name.
  destruct (mem target_name l) eqn:Hmem.
  { eexists. split; [reflexivity|]. left. split; [|reflexivity].
    apply mem_In, Hmem. }
  destruct (find (same_lower lower target_name) l) as [s|] eqn:Hfind.
  { eexists. split; [reflexivity|]. right. left.
    apply find_first_such, Hfind. }
  assert (Hpromo :
    match (if contains BLACK_STAR_PROMOS target_name
           then promo_scan target_name l else inr None) with
    | inr (Some s) => first_such (promo_true target_name) l s
    | inr None => True
    | inl _ => False
    end).
  { destruct (contains BLACK_STAR_PROMOS target_name);
      [apply promo_scan_spec|exact I]. }
  destruct (if contains BLACK_STAR_PROMOS target_name
            then promo_scan target_name l else inr None) as [e|[s|]];
    [destruct Hpromo| |]; cbn [bind_exn].
  { eexists. split; [reflexivity|]. right. right. left. exact Hpromo. }
  destruct (filter (partial_match lower target_name) l) as [|m rest] eqn:Hf;
    cbn [is_empty negb index0 bind_exn].
  - eexists. split; [reflexivity|].
    pose proof (token_overlap_spec lower target_name l) as Ht.
    destruct (token_overlap lower target_name l) as [s|]; [|exact I].
    right. right. right. right. exact Ht.
  - eexists. split; [reflexivity|]. right. right. right. left.
    eapply filter_head_first_such, Hf.
Qed.

(** C4.  A target that is literally in the list is returned as it is,
    whatever other candidates (equal up to case, containing it, sharing
    tokens) the list holds, and whatever the case mapping. *)
Theorem exact_match_wins (lower : str -> str) (target_name : str)
        (available_sets : list str) :
  In target_name available_sets ->
  find_closest_set_name lower target_name available_sets
  = inr (Some target_name).
Proof.
  intro H. apply mem_In in H. unfold find_closest_set_name.
  rewrite H. reflexivity.
Qed.

Lemma exact_match_wins_witness :
  find_closest_set_name ascii_lower (py "Rocket")
    [py "Team Rocket"; py "ROCKET"; py "Rocket"]
  = inr (Some (py "Rocket")).
Proof.
  apply (exact_match_wins ascii_lower (py "Rocket")
           [py "Team Rocket"; py "ROCKET"; py "Rocket"]).
  cbn. right. right. left. reflexivity.
Defined.

(** C5.  On a non-empty list of strings the resolver does not raise, and
    it returns [None] or a member of the list. *)
Theorem resolver_total (lower : str -> str) (target_name : str)
        (available_sets : list str) :
  available_sets <> [] ->
  exists r,
    find_closest_set_name lower target_name available_sets = inr r
    /\ (r = None \/ exists s, r = Some s /\ In s available_sets).
Proof.
  intros _.
  destruct (find_closest_set_name_cases lower target_name available_sets)
    as [r [Hr Hc]].
  exists r. split; [exact Hr|].
  destruct r as [s|]; [right|left; reflexivity].
  exists s. split; [reflexivity|].
  destruct Hc as [[Hin ->]|[H|[H|[H|H]]]].
  - exact Hin.
  - eapply first_such_In, H.
  - eapply first_such_In, H.
  - eapply first_such_In, H.
  - eapply first_best_In, H.
Qed.

Lemma resolver_total_witness :
  exists r,
    find_closest_set_name ascii_lower (py "gang of rockets")
      [py "Team Rocket"; py "Rocket Gang"] = inr r
    /\ (r = None
        \/ exists s, r = Some s /\ In s [py "Team Rocket"; py "Rocket Gang"]).
Proof.
  apply (resolver_total ascii_lower (py "gang of rockets")
           [py "Team Rocket"; py "Rocket Gang"]).
  discriminate.
Defined.


(** ** The price extractor *)

Lemma is_not_none_true v : is_not_none v = true -> v <> JNull.
Proof. intros H E. subst v. discriminate H. Qed.

Lemma Forall_flat_map {A B} (P : B -> Prop) (f : A -> list B) l :
  (forall a, In a l -> Forall P (f a)) -> Forall P (flat_map f l).
Proof.
  induction l as [|a l IH]; intro H; cbn [flat_map]; [constructor|].
  apply Forall_app. split.
  - apply H. left. reflexivity.
  - apply IH. intros b Hb. apply H. right. exact Hb.
Qed.

Lemma market_rows_not_null now pd condition prices :
  Forall (fun e => e_price e <> JNull) (market_rows now pd condition prices).
Proof.
  unfold market_rows. destruct prices; try constructor.
  destruct (dict_get (py "market") d) as [market|]; [|constructor].
  destruct (is_not_none market) eqn:E; constructor; [|constructor].
  apply is_not_none_true, E.
Qed.

Lemma flat_rows_not_null now pd condition prices :
  Forall (fun e => f_price e <> JNull) (flat_rows now pd condition prices).
Proof.
  unfold flat_rows. destruct prices; try constructor.
  apply Forall_flat_map. intros [price_type price] _. cbn [fst snd].
  destruct (is_not_none price) eqn:E; constructor; [|constructor].
  apply is_not_none_true, E.
Qed.

(** C9.  No row carries a null price, in either extraction mode; and in the
    market-only mode the block [{"market": null, "low": 5}] of a condition
    gives no row, while the all-price-types mode gives the one row of
    ["low"] for it. *)
Theorem price_entries_never_null (now : str) (pd : price_data)
        (condition : str) :
  Forall (fun e => e_price e <> JNull) (extract_market now pd)
  /\ Forall (fun e => f_price e <> JNull) (flatten_prices now pd)
  /\ market_rows now pd condition
       (JDict [(py "market", JNull); (py "low", JNum 5)]) = []
  /\ extract_market now
       (mkPriceData (pd_id pd) (pd_name pd) (pd_set pd) (pd_number pd)
          (pd_rarity pd)
          [(py "holofoil", JDict [(py "market", JNull); (py "low", JNum 5)])]
          (pd_updated_at pd)) = []
  /\ map f_price_type
       (flat_rows now pd condition
          (JDict [(py "market", JNull); (py "low", JNum 5)])) = [py "low"].
Proof.
  split; [|split; [|split; [|split]]].
  - apply Forall_flat_map. intros. apply market_rows_not_null.
  - apply Forall_flat_map. intros. apply flat_rows_not_null.
  - reflexivity.
  - reflexivity.
  - reflexivity.
Qed.

(** ** The sort of the rows *)

Lemma str_compare_refl a : str_compare a a = Eq.
Proof.
  induction a as [|x a IH]; cbn; [reflexivity|].
  rewrite N.compare_refl. exact IH.
Qed.

Lemma str_compare_antisym a b : str_compare b a = CompOpp (str_compare a b).
Proof.
  revert b. induction a as [|x a IH]; intros [|y b]; cbn; try reflexivity.
  rewrite (N.compare_antisym x y).
  destruct (x ?= y)%N; cbn; auto.
Qed.

Lemma num_compare_antisym a b : num_compare b a = CompOpp (num_compare a b).
Proof.
  destruct a as [x|], b as [y|]; cbn; try reflexivity.
  apply Z.compare_antisym.
Qed.

Lemma lex_antisym c1 c2 : lex (CompOpp c1) (CompOpp c2) = CompOpp (lex c1 c2).
Proof. destruct c1; reflexivity. Qed.

Section SortFacts.

Variable decimal : N -> option Z.

Lemma row_compare_antisym a b :
  row_compare decimal b a = CompOpp (row_compare decimal a b).
Proof.
  unfold row_compare.
  rewrite (str_compare_antisym (e_set a) (e_set b)),
          (num_compare_antisym (extract_number decimal (e_number a))),
          (str_compare_antisym (extract_letter (e_number a))),
          (str_compare_antisym (e_condition a) (e_condition b)).
  rewrite !lex_antisym. reflexivity.
Qed.

Lemma row_leb_total a b :
  row_leb decimal a b = false -> row_leb decimal b a = true.
Proof.
  unfold row_leb. rewrite (row_compare_antisym a b).
  destruct (row_compare decimal a b); cbn; congruence.
Qed.

Lemma insert_row_perm x l :
  Permutation (x :: l) (insert_row decimal x l).
Proof.
  induction l as [|y l IH]; cbn [insert_row]; [reflexivity|].
  destruct (row_leb decimal x y); [reflexivity|].
  rewrite perm_swap. constructor. exact IH.
Qed.

(** The sort keeps the rows, ... *)
Lemma sort_values_perm l : Permutation l (sort_values decimal l).
Proof.
  induction l as [|x l IH]; cbn [sort_values]; [constructor|].
  rewrite <- insert_row_perm. constructor. exact IH.
Qed.

Lemma insert_row_sorted x l :
  LocallySorted (fun a b => row_leb decimal a b = true) l ->
  LocallySorted (fun a b => row_leb decimal a b = true)
                (insert_row decimal x l).
Proof.
  induction 1 as [|y|y z l Hl IH Hyz]; cbn [insert_row].
  - constructor.
  - destruct (row_leb decimal x y) eqn:E.
    + constructor; [constructor|exact E].
    + constructor; [constructor|apply row_leb_total, E].
  - cbn [insert_row] in IH.
    destruct (row_leb decimal x y) eqn:E.
    + constructor; [constructor; assumption|exact E].
    + destruct (row_leb decimal x z) eqn:E'.
      * constructor; [exact IH|apply row_leb_total, E].
      * constructor; [exact IH|exact Hyz].
Qed.

(** ... and puts them in the order of the key. *)
Lemma sort_values_sorted l :
  LocallySorted (fun a b => row_leb decimal a b = true)
                (sort_values decimal l).
Proof.
  induction l as [|x l IH]; cbn [sort_values]; [constructor|].
  apply insert_row_sorted, IH.
Qed.

(** Rows that differ in their number only are ordered by the number. *)
Lemma row_leb_with_number e a b :
  row_leb decimal (with_number e a) (with_number e b)
  = number_leb decimal a b.
Proof.
  unfold row_leb, number_leb, row_compare, with_number.
  cbn [e_set e_number e_condition].
  rewrite !str_compare_refl. cbn [lex].
  destruct (num_compare _ _); cbn [lex]; try reflexivity.
  destruct (str_compare _ _); reflexivity.
Qed.

Lemma insert_row_with_number e x l :
  insert_row decimal (with_number e x) (map (with_number e) l)
  = map (with_number e) (insert_number decimal x l).
Proof.
  induction l as [|y l IH]; cbn [map insert_row insert_number];
    [reflexivity|].
  rewrite row_leb_with_number.
  destruct (number_leb decimal x y); cbn [map]; [reflexivity|].
  rewrite IH. reflexivity.
Qed.

Lemma sort_values_with_number e l :
  map e_number (sort_values decimal (map (with_number e) l))
  = sort_numbers decimal l.
Proof.
  assert (H : sort_values decimal (map (with_number e) l)
              = map (with_number e) (sort_numbers decimal l)).
  { induction l as [|x l IH]; cbn [map sort_values sort_numbers];
      [reflexivity|].
    rewrite IH. apply insert_row_with_number. }
  rewrite H, map_map. cbn [with_number e_number]. apply map_id.
Qed.

End SortFacts.

(** C3 (as amended).  Among rows of one set and one condition, the numbers
    ["9", "10", "TG1", "2"] come out as ["TG1", "2", "9", "10"]: the key is
    the first run of digits anywhere in the string (1 for ["TG1"]), in
    ascending order; only strings without a digit go last. *)
Theorem csv_sort_by_number (e : price_entry) :
  map e_number
      (sort_values ascii_decimal
         (map (with_number e)
              [Some (py "9"); Some (py "10"); Some (py "TG1"); Some (py "2")]))
  = [Some (py "TG1"); Some (py "2"); Some (py "9"); Some (py "10")]
  /\ map (extract_number ascii_decimal)
         [Some (py "9"); Some (py "10"); Some (py "TG1"); Some (py "2");
          Some (py "TG")]
     = [Finite 9; Finite 10; Finite 1; Finite 2; Infinity]
  /\ (forall decimal l,
        Permutation l (sort_values decimal l)
        /\ LocallySorted (fun a b => row_leb decimal a b = true)
                         (sort_values decimal l)).
Proof.
  split; [|split; [reflexivity|]].
  - rewrite sort_values_with_number. reflexivity.
  - intros decimal l.
    split; [apply sort_values_perm|apply sort_values_sorted].
Qed.

(** C3 as stated fails: ["TG1"] does not sort after the numbers. *)
Lemma csv_sort_tg1_not_last :
  map e_number
      (sort_values ascii_decimal
         (map (with_number row0)
              [Some (py "9"); Some (py "10"); Some (py "TG1"); Some (py "2")]))
  <> [Some (py "2"); Some (py "9"); Some (py "10"); Some (py "TG1")].
Proof. vm_compute. discriminate. Qed.


(** * Further properties of the code *)

(** ** The fetcher: what a call can do *)

Section FetcherTrace.

Variable B : Type.
Variable http : nat -> request -> outcome B.
Variable rate_limit_delay : Q.
Variable r : request.

Lemma trace_ok_refl k s : trace_ok http r k s None s.
Proof.
  exists []. rewrite app_nil_r. cbn. repeat split; try lia.
  all: discriminate.
Qed.

Lemma trace_ok_one k s v s1 sl :
  log s1 = log s ++ EvGet r :: sl ->
  calls sl = [] -> gets sl = [] ->
  sent s1 = S (sent s) ->
  (forall b, v = Some b -> http (sent s) r = HttpResponse 200 (Some b)) ->
  trace_ok http r (S k) s v s1.
Proof.
  intros Hlog Hc Hg Hs Hv. exists (EvGet r :: sl).
  cbn [calls gets flat_map app]. fold (calls sl). fold (gets sl).
  rewrite Hc, Hg, Hs. cbn.
  repeat split; try lia; auto.
Qed.

Lemma trace_ok_step k s s1 v s' sl :
  log s1 = log s ++ EvGet r :: sl ->
  calls sl = [] -> gets sl = [] ->
  sent s1 = S (sent s) ->
  trace_ok http r k s1 v s' ->
  trace_ok http r (S k) s v s'.
Proof.
  intros Hlog Hc Hg Hs [l [Hl [Hcl [Hgl [Hsl [Hk Hv]]]]]].
  exists ((EvGet r :: sl) ++ l).
  rewrite calls_app, Hcl.
  assert (Hgets : gets ((EvGet r :: sl) ++ l) = r :: gets l).
  { cbn [app gets flat_map]. fold (gets (sl ++ l)).
    unfold gets at 1. rewrite flat_map_app. fold (gets sl) (gets l).
    rewrite Hg. reflexivity. }
  rewrite Hgets. cbn [calls flat_map app List.length repeat].
  fold (calls sl). rewrite Hc, <- Hgl.
  repeat split; try lia; try (apply Hv; assumption).
  rewrite Hl, Hlog, <- app_assoc. reflexivity.
Qed.

(** The retry loop, with enough fuel: at most one request per remaining
    attempt; only [time.sleep] can make it raise. *)
Lemma safe_api_call_loop_trace max_retries backoff_factor :
  forall fuel retries s,
    (Z.to_nat (max_retries + 1 - retries) < fuel)%nat ->
    match safe_api_call_loop B http rate_limit_delay fuel r
                             max_retries backoff_factor retries s with
    | Ret v s' =>
        trace_ok http r (Z.to_nat (max_retries + 1 - retries)) s v s'
    | Exc e s' =>
        e = ValueError
        /\ trace_ok http r (Z.to_nat (max_retries + 1 - retries)) s None s'
    | OutOfFuel => False
    end.
Proof.
  induction fuel as [|fuel IH]; intros retries s Hfuel; [lia|].
  cbn [safe_api_call_loop].
  destruct (retries <=? max_retries) eqn:Hle;
    [|apply trace_ok_refl].
  apply Z.leb_le in Hle.
  replace (Z.to_nat (max_retries + 1 - retries))
    with (S (Z.to_nat (max_retries + 1 - (retries + 1)))) by lia.
  assert (Hrec : forall s1 sl,
            log s1 = log s ++ EvGet r :: sl ->
            calls sl = [] -> gets sl = [] -> sent s1 = S (sent s) ->
            match safe_api_call_loop B http rate_limit_delay fuel r
                    max_retries backoff_factor (retries + 1) s1 with
            | Ret v s' =>
                trace_ok http r
                  (S (Z.to_nat (max_retries + 1 - (retries + 1)))) s v s'
            | Exc e s' =>
                e = ValueError
                /\ trace_ok http r
                     (S (Z.to_nat (max_retries + 1 - (retries + 1)))) s
                     None s'
            | OutOfFuel => False
            end).
  { intros s1 sl H1 H2 H3 H4.
    pose proof (IH (retries + 1) s1 ltac:(lia)) as H.
    destruct (safe_api_call_loop B http rate_limit_delay fuel r
                max_retries backoff_factor (retries + 1) s1)
      as [v s'|e s'|]; [|destruct H as [He H]; split; [exact He|]|exact H];
      eapply trace_ok_step; eauto. }
  set (s1 := mkState (S (sent s)) (log s ++ [EvGet r])).
  assert (Hh :
    match
      (f <- (let retries0 := retries + 1 in
             if retries0 <=? max_retries
             then sleep (backoff rate_limit_delay backoff_factor retries0) ;;;
                  ret (Fallthrough B retries0)
             else ret (Return B None)) ;;
       match f with
       | Return _ v => ret v
       | Continue _ k =>
           safe_api_call_loop B http rate_limit_delay fuel r
                              max_retries backoff_factor k
       | Fallthrough _ k =>
           sleep rate_limit_delay ;;;
           safe_api_call_loop B http rate_limit_delay fuel r
                              max_retries backoff_factor k
       end) s1
    with
    | Ret v s' =>
        trace_ok http r
          (S (Z.to_nat (max_retries + 1 - (retries + 1)))) s v s'
    | Exc e s' =>
        e = ValueError
        /\ trace_ok http r
             (S (Z.to_nat (max_retries + 1 - (retries + 1)))) s None s'
    | OutOfFuel => False
    end).
  { cbv zeta. unfold bind, sleep, emit, ret, raise.
    destruct (retries + 1 <=? max_retries).
    - destruct (Qle_bool 0 (backoff rate_limit_delay backoff_factor
                                    (retries + 1))).
      + destruct (Qle_bool 0 rate_limit_delay).
        * apply Hrec with
            (sl := [EvSleep (backoff rate_limit_delay backoff_factor
                                     (retries + 1));
                    EvSleep rate_limit_delay]); try reflexivity.
          cbn [log s1]. rewrite <- !app_assoc. reflexivity.
        * split; [reflexivity|].
          apply trace_ok_one with
            (sl := [EvSleep (backoff rate_limit_delay backoff_factor
                                     (retries + 1))]);
            try reflexivity; try discriminate.
          cbn [log s1]. rewrite <- !app_assoc. reflexivity.
      + split; [reflexivity|].
        apply trace_ok_one with (sl := []);
          try reflexivity; discriminate.
    - apply trace_ok_one with (sl := []);
        try reflexivity; discriminate. }
  unfold bind at 1. unfold try_except, bind at 1. unfold requests_get.
  fold s1.
  destruct (http (sent s) r) as [|c body] eqn:Hhttp.
  - exact Hh.
  - cbn [status_code].
    destruct (c =? 200) eqn:E200.
    + apply Z.eqb_eq in E200. subst c.
      unfold bind at 1, response_json. cbn [json_body].
      destruct body as [b|].
      * apply trace_ok_one with (sl := []); try reflexivity.
        intros b' Hb. inversion Hb; subst b'. exact Hhttp.
      * exact Hh.
    + destruct (c =? 429).
      * unfold bind at 1, sleep.
        destruct (Qle_bool 0 (backoff rate_limit_delay backoff_factor
                                      retries)).
        -- apply Hrec with
             (sl := [EvSleep (backoff rate_limit_delay backoff_factor
                                      retries)]); try reflexivity.
           cbn [log s1]. rewrite <- !app_assoc. reflexivity.
        -- exact Hh.
      * apply trace_ok_one with (sl := []);
          try reflexivity; discriminate.
Qed.

End FetcherTrace.

Lemma gets_app l1 l2 : gets (l1 ++ l2) = gets l1 ++ gets l2.
Proof. unfold gets. apply flat_map_app. Qed.

Lemma backoff_nonneg delay factor retries :
  (0 <= delay)%Q -> (0 <= factor)%Q ->
  Qle_bool 0 (backoff delay factor retries) = true.
Proof.
  intros Hd Hf. apply Qle_bool_iff. unfold backoff.
  apply Qmult_le_0_compat; [exact Hd|]. apply Qpower_0_le, Hf.
Qed.

(** X1.  Whatever the server does, [safe_api_call] stops after at most
    [max_retries + 1] requests, all of them for the request it was given;
    it adds nothing else to the log but sleeps. *)
Theorem safe_api_call_request_bound (B : Type)
        (http : nat -> request -> outcome B) (rate_limit_delay : Q)
        (r : request) (max_retries : Z) (backoff_factor : Q) (s : state) :
  exists s' l,
    final (safe_api_call B http rate_limit_delay r max_retries
                         backoff_factor s) = Some s'
    /\ log s' = log s ++ EvCall r :: l
    /\ calls l = []
    /\ gets l = repeat r (List.length (gets l))
    /\ (List.length (gets l) <= Z.to_nat (max_retries + 1))%nat
    /\ sent s' = (sent s + List.length (gets l))%nat.
Proof.
  unfold safe_api_call, bind, emit.
  set (s0 := mkState (sent s) (log s ++ [EvCall r])).
  pose proof (safe_api_call_loop_trace B http rate_limit_delay r
                max_retries backoff_factor
                (S (Z.to_nat (max_retries + 1))) 0 s0 ltac:(lia)) as H.
  replace (max_retries + 1 - 0) with (max_retries + 1) in H by lia.
  destruct (safe_api_call_loop B http rate_limit_delay
              (S (Z.to_nat (max_retries + 1))) r max_retries
              backoff_factor 0 s0) as [v s'|e s'|];
    [|destruct H as [_ H]|destruct H];
    destruct H as [l [Hl [Hc [Hg [Hs [Hk _]]]]]];
    exists s', l; cbn [final];
    (split; [reflexivity|]);
    (split; [rewrite Hl; cbn [log s0]; rewrite <- app_assoc; reflexivity|]);
    auto.
Qed.

Lemma safe_api_call_some (B : Type)
      (http : nat -> request -> outcome B) (rate_limit_delay : Q)
      (r : request) (max_retries : Z) (backoff_factor : Q)
      (s s' : state) (b : B) :
  safe_api_call B http rate_limit_delay r max_retries backoff_factor s
  = Ret (Some b) s' ->
  (sent s < sent s')%nat
  /\ http (pred (sent s')) r = HttpResponse 200 (Some b).
Proof.
  unfold safe_api_call, bind, emit.
  set (s0 := mkState (sent s) (log s ++ [EvCall r])).
  pose proof (safe_api_call_loop_trace B http rate_limit_delay r
                max_retries backoff_factor
                (S (Z.to_nat (max_retries + 1))) 0 s0 ltac:(lia)) as H.
  intro Hrun. rewrite Hrun in H.
  destruct H as [l [Hl [Hc [Hg [Hs [Hk Hv]]]]]].
  destruct (Hv b eq_refl) as [Hpos Hb]. split; [|exact Hb].
  rewrite Hs. cbn [sent s0]. lia.
Qed.

(** X2.  A body that [safe_api_call] returns is the JSON body of a 200
    response to its request: the response to the last request it issued. *)
Theorem safe_api_call_returns_200_body (B : Type)
        (http : nat -> request -> outcome B) (rate_limit_delay : Q)
        (r : request) (max_retries : Z) (backoff_factor : Q)
        (s s' : state) (b : B) :
  safe_api_call B http rate_limit_delay r max_retries backoff_factor s
  = Ret (Some b) s' ->
  (sent s < sent s')%nat
  /\ http (pred (sent s')) r = HttpResponse 200 (Some b).
Proof.
  unfold safe_api_call, bind, emit.
  set (s0 := mkState (sent s) (log s ++ [EvCall r])).
  pose proof (safe_api_call_loop_trace B http rate_limit_delay r
                max_retries backoff_factor
                (S (Z.to_nat (max_retries + 1))) 0 s0 ltac:(lia)) as H.
  intro Hrun. rewrite Hrun in H.
  destruct H as [l [Hl [Hc [Hg [Hs [Hk Hv]]]]]].
  destruct (Hv b eq_refl) as [Hpos Hb]. split; [|exact Hb].
  rewrite Hs. cbn [sent s0]. lia.
Qed.

Lemma safe_api_call_returns_200_body_witness :
  (sent init < sent (mkState 1 [EvCall (ReqSets 1 250); EvGet (ReqSets 1 250)]))%nat
  /\ ok200 (pred (sent (mkState 1 [EvCall (ReqSets 1 250);
                                   EvGet (ReqSets 1 250)])))
           (ReqSets 1 250)
     = HttpResponse 200 (Some tt).
Proof.
  apply (safe_api_call_returns_200_body unit ok200 1 (ReqSets 1 250) 3 2
           init (mkState 1 [EvCall (ReqSets 1 250); EvGet (ReqSets 1 250)])
           tt).
  reflexivity.
Defined.

Lemma safe_api_call_status (B : Type)
        (http : nat -> request -> outcome B) (rate_limit_delay : Q)
        (r : request) (max_retries : Z) (backoff_factor : Q) (s : state)
        (c : Z) (body : option B) :
  http (sent s) r = HttpResponse c body ->
  c <> 200 -> c <> 429 -> 0 <= max_retries ->
  safe_api_call B http rate_limit_delay r max_retries backoff_factor s
  = Ret None (mkState (S (sent s)) (log s ++ [EvCall r; EvGet r])).
Proof.
  intros H H200 H429 Hm. unfold safe_api_call, bind at 1, emit.
  cbn [safe_api_call_loop].
  assert (E : (0 <=? max_retries) = true) by (apply Z.leb_le; exact Hm).
  rewrite E. unfold bind, try_except, requests_get. cbn [sent log].
  rewrite H. cbn [status_code].
  apply Z.eqb_neq in H200, H429. rewrite H200, H429.
  unfold ret. rewrite <- app_assoc. reflexivity.
Qed.


(** X3.  A status other than 200 and 429 is not retried: one request, no
    sleep, [None]. *)
Theorem safe_api_call_other_status (B : Type)
        (http : nat -> request -> outcome B) (rate_limit_delay : Q)
        (r : request) (max_retries : Z) (backoff_factor : Q) (s : state)
        (c : Z) (body : option B) :
  http (sent s) r = HttpResponse c body ->
  c <> 200 -> c <> 429 -> 0 <= max_retries ->
  safe_api_call B http rate_limit_delay r max_retries backoff_factor s
  = Ret None (mkState (S (sent s)) (log s ++ [EvCall r; EvGet r])).
Proof.
  intros H H200 H429 Hm. unfold safe_api_call, bind at 1, emit.
  cbn [safe_api_call_loop].
  assert (E : (0 <=? max_retries) = true) by (apply Z.leb_le; exact Hm).
  rewrite E. unfold bind, try_except, requests_get. cbn [sent log].
  rewrite H. cbn [status_code].
  apply Z.eqb_neq in H200, H429. rewrite H200, H429.
  unfold ret. rewrite <- app_assoc. reflexivity.
Qed.

Lemma safe_api_call_other_status_witness :
  safe_api_call unit (status_only 404) 1 (ReqCard (py "base1-4")) 3 2 init
  = Ret None (mkState 1 [EvCall (ReqCard (py "base1-4"));
                         EvGet (ReqCard (py "base1-4"))]).
Proof.
  apply (safe_api_call_other_status unit (status_only 404) 1
           (ReqCard (py "base1-4")) 3 2 init 404 None);
    first [reflexivity | discriminate | lia].
Defined.

Lemma sleep_nonneg t :
  Qle_bool 0 t = true -> sleep t = emit (EvSleep t).
Proof. intro H. unfold sleep. rewrite H. reflexivity. Qed.

Section FetcherNonneg.

Variable B : Type.
Variable http : nat -> request -> outcome B.
Variable rate_limit_delay backoff_factor : Q.
Variable r : request.
Variable max_retries : Z.
Hypothesis delay_nonneg : (0 <= rate_limit_delay)%Q.
Hypothesis factor_nonneg : (0 <= backoff_factor)%Q.

(** One pass through the exception branch that retries. *)
Lemma safe_api_call_loop_fails fuel retries s :
  fails (http (sent s) r) ->
  retries + 1 <= max_retries ->
  safe_api_call_loop B http rate_limit_delay (S fuel) r
                     max_retries backoff_factor retries s
  = safe_api_call_loop B http rate_limit_delay fuel r
      max_retries backoff_factor (retries + 1)
      (mkState (S (sent s))
         (log s ++ [EvGet r;
                    EvSleep (backoff rate_limit_delay backoff_factor
                                     (retries + 1));
                    EvSleep rate_limit_delay])).
Proof.
  intros Hf Hle. cbn [safe_api_call_loop].
  assert (E1 : (retries <=? max_retries) = true) by (apply Z.leb_le; lia).
  assert (E2 : (retries + 1 <=? max_retries) = true)
    by (apply Z.leb_le; lia).
  rewrite E1, !sleep_nonneg
    by first [apply backoff_nonneg; assumption
             |apply Qle_bool_iff; assumption].
  unfold bind at 1. unfold try_except, bind at 1, requests_get.
  destruct Hf as [Hf|Hf]; rewrite Hf; cbn [status_code Z.eqb Pos.eqb];
    cbv zeta; rewrite E2; unfold bind, response_json, emit, ret, raise;
    cbn [json_body sent log]; rewrite <- !app_assoc; reflexivity.
Qed.

(** The last pass through the exception branch gives up. *)
Lemma safe_api_call_loop_fails_last fuel s :
  fails (http (sent s) r) ->
  safe_api_call_loop B http rate_limit_delay (S fuel) r
                     max_retries backoff_factor max_retries s
  = Ret None (mkState (S (sent s)) (log s ++ [EvGet r])).
Proof.
  intros Hf. cbn [safe_api_call_loop].
  assert (E1 : (max_retries <=? max_retries) = true)
    by (apply Z.leb_le; lia).
  assert (E2 : (max_retries + 1 <=? max_retries) = false)
    by (apply Z.leb_gt; lia).
  rewrite E1.
  unfold bind at 1. unfold try_except, bind at 1, requests_get.
  destruct Hf as [Hf|Hf]; rewrite Hf; cbn [status_code Z.eqb Pos.eqb];
    cbv zeta; rewrite E2; reflexivity.
Qed.

(** With non-negative delay and factor the loop returns: no sleep raises. *)
Lemma safe_api_call_loop_returns :
  forall fuel retries s,
    (Z.to_nat (max_retries + 1 - retries) < fuel)%nat ->
    exists v s',
      safe_api_call_loop B http rate_limit_delay fuel r
                         max_retries backoff_factor retries s = Ret v s'.
Proof.
  induction fuel as [|fuel IH]; intros retries s Hfuel; [lia|].
  cbn [safe_api_call_loop].
  destruct (retries <=? max_retries) eqn:Hle; [|unfold ret; eauto].
  apply Z.leb_le in Hle.
  rewrite !sleep_nonneg
    by first [apply backoff_nonneg; assumption
             |apply Qle_bool_iff; assumption].
  assert (Hrec : forall s1,
            exists v s',
              safe_api_call_loop B http rate_limit_delay fuel r
                max_retries backoff_factor (retries + 1) s1 = Ret v s')
    by (intro s1; apply IH; lia).
  unfold bind at 1. unfold try_except, bind at 1, requests_get.
  assert (Hh : forall s1,
    exists v s',
      match
        (let retries0 := retries + 1 in
         if retries0 <=? max_retries
         then emit (EvSleep (backoff rate_limit_delay backoff_factor
                                     retries0)) ;;;
              ret (Fallthrough B retries0)
         else ret (Return B None)) s1
      with
      | Ret a s'0 =>
          match a with
          | Return _ v0 => ret v0
          | Continue _ k =>
              safe_api_call_loop B http rate_limit_delay fuel r
                                 max_retries backoff_factor k
          | Fallthrough _ k =>
              emit (EvSleep rate_limit_delay) ;;;
              safe_api_call_loop B http rate_limit_delay fuel r
                                 max_retries backoff_factor k
          end s'0
      | Exc e s'0 => Exc e s'0
      | OutOfFuel => OutOfFuel
      end = Ret v s').
  { intro s1. cbv zeta. destruct (retries + 1 <=? max_retries).
    - unfold bind, emit, ret. apply Hrec.
    - unfold ret. eauto. }
  destruct (http (sent s) r) as [|c body]; [apply Hh|].
  cbn [status_code]. destruct (c =? 200).
  - unfold bind at 1, response_json. cbn [json_body].
    destruct body as [b|]; [unfold ret; eauto|apply Hh].
  - destruct (c =? 429).
    + unfold bind at 1, emit, ret. apply Hrec.
    + unfold ret. eauto.
Qed.

End FetcherNonneg.

Lemma waits_within_concrete :
  waits_within 1 2 3 /\ waits_within (3 # 2) 2 3.
Proof.
  split; (split; [discriminate|]); (split; [discriminate|]);
    (split; [discriminate|]); intros k Hk;
    assert (Hc : k = 0 \/ k = 1 \/ k = 2 \/ k = 3) by lia;
    destruct Hc as [ -> | [ -> | [ -> | -> ] ] ]; split; discriminate.
Qed.

(** X4.  When the delay, the backoff factor and the waits they give are
    non-negative and within [SLEEP_LIMIT], [safe_api_call] returns a value
    against any server: no exception escapes it.  The condition matters:
    with the delay -1 the first 429 makes [time.sleep] raise ValueError in
    the 429 branch and again in the handler, from where it escapes. *)
Theorem safe_api_call_never_raises (B : Type)
        (http : nat -> request -> outcome B) (rate_limit_delay : Q)
        (r : request) (max_retries : Z) (backoff_factor : Q) (s : state) :
  waits_within rate_limit_delay backoff_factor max_retries ->
  (exists v s',
     safe_api_call B http rate_limit_delay r max_retries backoff_factor s
     = Ret v s')
  /\ safe_api_call unit always429 (-1) r 3 2 init
     = Exc ValueError (mkState 1 [EvCall r; EvGet r]).
Proof.
  intros [Hd [_ [Hf _]]]. split; [|reflexivity].
  unfold safe_api_call, bind at 1, emit.
  apply safe_api_call_loop_returns; [exact Hd|exact Hf|lia].
Qed.

Lemma safe_api_call_never_raises_witness :
  (exists v s',
     safe_api_call unit unreachable 1 (ReqSets 1 250) 3 2 init = Ret v s')
  /\ safe_api_call unit always429 (-1) (ReqSets 1 250) 3 2 init
     = Exc ValueError (mkState 1 [EvCall (ReqSets 1 250);
                                  EvGet (ReqSets 1 250)]).
Proof.
  apply (safe_api_call_never_raises unit unreachable 1 (ReqSets 1 250) 3 2
           init).
  apply waits_within_concrete.
Defined.

Section FetcherSchedules.

Variable B : Type.
Variable http : nat -> request -> outcome B.
Variable rate_limit_delay backoff_factor : Q.
Variable r : request.
Variable max_retries : Z.
Hypothesis delay_nonneg : (0 <= rate_limit_delay)%Q.
Hypothesis factor_nonneg : (0 <= backoff_factor)%Q.

Lemma safe_api_call_loop_all_429 :
  (forall n, exists b, http n r = HttpResponse 429 b) ->
  forall n retries s,
    Z.of_nat n = max_retries + 1 - retries ->
    exists s',
      safe_api_call_loop B http rate_limit_delay (S n) r
                         max_retries backoff_factor retries s = Ret None s'
      /\ gets (log s') = gets (log s) ++ repeat r n
      /\ sleeps (log s')
         = sleeps (log s)
           ++ backoff_schedule rate_limit_delay backoff_factor retries n
      /\ calls (log s') = calls (log s).
Proof.
  intro H. induction n as [|n IH]; intros retries s Hn.
  - exists s. cbn [safe_api_call_loop].
    assert (E : (retries <=? max_retries) = false) by (apply Z.leb_gt; lia).
    rewrite E. cbn. rewrite !app_nil_r. auto.
  - destruct (H (sent s)) as [b Hb].
    rewrite safe_api_call_loop_429 with (b := b);
      [|exact Hb|lia|apply backoff_nonneg; assumption].
    destruct (IH (retries + 1)
                 (mkState (S (sent s))
                    (log s ++ [EvGet r;
                               EvSleep (backoff rate_limit_delay
                                                backoff_factor retries)])))
      as [s' [Hrun [Hg [Hs Hc]]]]; [lia|].
    exists s'. split; [exact Hrun|].
    cbn [log] in Hg, Hs, Hc.
    rewrite gets_app in Hg. rewrite sleeps_app in Hs.
    rewrite calls_app in Hc.
    rewrite Hg, Hs, Hc. cbn. rewrite <- !app_assoc, app_nil_r. auto.
Qed.

Lemma safe_api_call_loop_all_fail :
  (forall n, fails (http n r)) ->
  forall n retries s,
    Z.of_nat n = max_retries - retries ->
    exists s',
      safe_api_call_loop B http rate_limit_delay (S (S n)) r
                         max_retries backoff_factor retries s = Ret None s'
      /\ gets (log s') = gets (log s) ++ repeat r (S n)
      /\ sleeps (log s')
         = sleeps (log s)
           ++ failure_schedule rate_limit_delay backoff_factor retries n
      /\ calls (log s') = calls (log s).
Proof.
  intro H. induction n as [|n IH]; intros retries s Hn.
  - assert (retries = max_retries) by lia. subst retries.
    rewrite safe_api_call_loop_fails_last; [|apply H].
    eexists. split; [reflexivity|]. cbn [log].
    rewrite gets_app, sleeps_app, calls_app. cbn.
    rewrite !app_nil_r. auto.
  - rewrite safe_api_call_loop_fails; [|assumption|assumption|apply H|lia].
    destruct (IH (retries + 1)
                 (mkState (S (sent s))
                    (log s ++ [EvGet r;
                               EvSleep (backoff rate_limit_delay
                                          backoff_factor (retries + 1));
                               EvSleep rate_limit_delay])))
      as [s' [Hrun [Hg [Hs Hc]]]]; [lia|].
    exists s'. split; [exact Hrun|].
    cbn [log] in Hg, Hs, Hc.
    rewrite gets_app in Hg. rewrite sleeps_app in Hs.
    rewrite calls_app in Hc.
    rewrite Hg, Hs, Hc. cbn. rewrite <- !app_assoc, app_nil_r. auto.
Qed.

End FetcherSchedules.

(** X5.  Against a server that always answers 429, with the delay, the
    factor and the waits within [SLEEP_LIMIT], [safe_api_call] issues
    exactly [max_retries + 1] requests, sleeps
    [delay * factor ** k] for [k = 0, ..., max_retries] in that order, and
    returns [None]. *)
Theorem safe_api_call_rate_limited_forever (B : Type)
        (http : nat -> request -> outcome B) (rate_limit_delay : Q)
        (r : request) (max_retries : Z) (backoff_factor : Q) (s : state) :
  waits_within rate_limit_delay backoff_factor max_retries ->
  0 <= max_retries ->
  (forall n, exists b, http n r = HttpResponse 429 b) ->
  exists s',
    safe_api_call B http rate_limit_delay r max_retries backoff_factor s
    = Ret None s'
    /\ gets (log s') = gets (log s) ++ repeat r (Z.to_nat (max_retries + 1))
    /\ sleeps (log s')
       = sleeps (log s)
         ++ backoff_schedule rate_limit_delay backoff_factor 0
                             (Z.to_nat (max_retries + 1)).
Proof.
  intros [Hd [_ [Hf _]]] Hm H. unfold safe_api_call, bind at 1, emit.
  destruct (safe_api_call_loop_all_429 B http rate_limit_delay
              backoff_factor r max_retries Hd Hf H
              (Z.to_nat (max_retries + 1)) 0
              (mkState (sent s) (log s ++ [EvCall r])))
    as [s' [Hrun [Hg [Hs _]]]]; [lia|].
  exists s'. split; [exact Hrun|].
  cbn [log] in Hg, Hs. rewrite gets_app in Hg. rewrite sleeps_app in Hs.
  cbn in Hg, Hs. rewrite app_nil_r in Hg, Hs. auto.
Qed.

Lemma safe_api_call_rate_limited_forever_witness :
  exists s',
    safe_api_call unit always429 (3 # 2) (ReqSets 1 250) 3 2 init
    = Ret None s'
    /\ gets (log s')
       = gets (log init) ++ repeat (ReqSets 1 250) (Z.to_nat (3 + 1))
    /\ sleeps (log s')
       = sleeps (log init)
         ++ backoff_schedule (3 # 2) 2 0 (Z.to_nat (3 + 1)).
Proof.
  apply (safe_api_call_rate_limited_forever unit always429 (3 # 2)
           (ReqSets 1 250) 3 2 init).
  - apply waits_within_concrete.
  - lia.
  - intro n. exists None. reflexivity.
Defined.

(** X6.  Against a server every request to which fails inside the [try]
    (transport error, or a 200 whose body is not JSON), with the delay, the
    factor and the waits within [SLEEP_LIMIT], [safe_api_call] issues
    exactly [max_retries + 1] requests and returns [None]; after each
    failure but the last it sleeps [delay * factor ** k] for the incremented
    counter [k = 1, ..., max_retries] and then the fixed delay. *)
Theorem safe_api_call_failing_forever (B : Type)
        (http : nat -> request -> outcome B) (rate_limit_delay : Q)
        (r : request) (max_retries : Z) (backoff_factor : Q) (s : state) :
  waits_within rate_limit_delay backoff_factor max_retries ->
  0 <= max_retries ->
  (forall n, fails (http n r)) ->
  exists s',
    safe_api_call B http rate_limit_delay r max_retries backoff_factor s
    = Ret None s'
    /\ gets (log s') = gets (log s) ++ repeat r (Z.to_nat (max_retries + 1))
    /\ sleeps (log s')
       = sleeps (log s)
         ++ failure_schedule rate_limit_delay backoff_factor 0
                             (Z.to_nat max_retries).
Proof.
  intros [Hd [_ [Hf _]]] Hm H. unfold safe_api_call, bind at 1, emit.
  replace (Z.to_nat (max_retries + 1)) with (S (Z.to_nat max_retries))
    by lia.
  destruct (safe_api_call_loop_all_fail B http rate_limit_delay
              backoff_factor r max_retries Hd Hf H
              (Z.to_nat max_retries) 0
              (mkState (sent s) (log s ++ [EvCall r])))
    as [s' [Hrun [Hg [Hs _]]]]; [lia|].
  exists s'. split; [exact Hrun|].
  cbn [log] in Hg, Hs. rewrite gets_app in Hg. rewrite sleeps_app in Hs.
  cbn in Hg, Hs. rewrite app_nil_r in Hg, Hs. auto.
Qed.

Lemma safe_api_call_failing_forever_witness :
  exists s',
    safe_api_call unit unreachable 1 (ReqSets 1 250) 3 2 init = Ret None s'
    /\ gets (log s')
       = gets (log init) ++ repeat (ReqSets 1 250) (Z.to_nat (3 + 1))
    /\ sleeps (log s')
       = sleeps (log init) ++ failure_schedule 1 2 0 (Z.to_nat 3).
Proof.
  apply (safe_api_call_failing_forever unit unreachable 1
           (ReqSets 1 250) 3 2 init).
  - apply waits_within_concrete.
  - lia.
  - intro n. left. reflexivity.
Defined.

(** ** The paginators: order of the pages, and what is returned *)

(** [safe_api_call] stops, records its call, and a body it returns comes
    from a 200 response. *)
Lemma safe_api_call_post_200 (B : Type)
      (http : nat -> request -> outcome B) (rate_limit_delay : Q)
      (r : request) (max_retries : Z) (backoff_factor : Q) (s : state) :
  post (safe_api_call B http rate_limit_delay r max_retries backoff_factor)
       s
       (fun v s' =>
          calls (log s') = calls (log s) ++ [r]
          /\ forall b, v = Some b ->
               exists n, http n r = HttpResponse 200 (Some b))
       (fun s' => calls (log s') = calls (log s) ++ [r]).
Proof.
  pose proof (safe_api_call_post B http rate_limit_delay r max_retries
                backoff_factor s) as Hp.
  pose proof (safe_api_call_some B http rate_limit_delay r max_retries
                backoff_factor s) as Hs.
  unfold post in *.
  destruct (safe_api_call B http rate_limit_delay r max_retries
              backoff_factor s) as [v s'|e s'|]; auto.
  split; [exact Hp|]. intros b Hb. subst v.
  destruct (Hs s' b eq_refl) as [_ H]. eauto.
Qed.

Section CardSearchFacts.

Variable rate_limit_delay : Q.
Variable A : Type.
Variable http : nat -> request -> outcome (page_response A).
Variable query : str.
Variable max_pages : Z.

(** The card search asks for consecutive pages, each once, and never for a
    page beyond [max_pages]. *)
Lemma search_cards_loop_pages :
  forall fuel page all_cards s,
    (Z.to_nat (max_pages + 1 - page) < fuel)%nat ->
    post (search_cards_loop rate_limit_delay A http fuel query max_pages
                            page all_cards) s
         (fun _ s' =>
            exists k, (k <= Z.to_nat (max_pages + 1 - page))%nat
              /\ calls (log s')
                 = calls (log s)
                   ++ page_requests (fun p => ReqCards query p 250) page k)
         (fun s' =>
            exists k, (k <= Z.to_nat (max_pages + 1 - page))%nat
              /\ calls (log s')
                 = calls (log s)
                   ++ page_requests (fun p => ReqCards query p 250) page k).
Proof.
  induction fuel as [|fuel IH]; intros page acc s Hfuel; [lia|].
  cbn [search_cards_loop].
  destruct (page <=? max_pages) eqn:Hle.
  2:{ apply post_ret. exists 0%nat. cbn. rewrite app_nil_r.
      split; [lia|reflexivity]. }
  apply Z.leb_le in Hle. apply post_bind.
  eapply post_weaken; [| |apply safe_api_call_post].
  - intros rd s1 Hc. cbv beta in Hc.
    destruct (cards_page acc rd) as [acc'|acc'].
    + apply post_ret. exists 1%nat. split; [lia|]. rewrite Hc. reflexivity.
    + eapply post_weaken; [| |apply IH; lia]; cbv beta.
      * intros _ s' [k [Hk Hs']]. exists (S k). split; [lia|].
        rewrite Hs', Hc, <- app_assoc. reflexivity.
      * intros s' [k [Hk Hs']]. exists (S k). split; [lia|].
        rewrite Hs', Hc, <- app_assoc. reflexivity.
  - intros s1 Hc. cbv beta in Hc. exists 1%nat. split; [lia|].
    rewrite Hc. reflexivity.
Qed.

End CardSearchFacts.

(** X7.  Against any server [search_cards] stops, and the pages it has
    asked the fetcher for are 1, 2, ..., k in this order, each once, with
    [pageSize] 250 and the given query, where k is at most [max_pages]. *)
Theorem search_cards_pages_in_order (rate_limit_delay : Q) (A : Type)
        (http : nat -> request -> outcome (page_response A))
        (query : str) (max_pages : Z) (s : state) :
  exists s' k,
    final (search_cards rate_limit_delay A http query max_pages s) = Some s'
    /\ (k <= Z.to_nat max_pages)%nat
    /\ calls (log s')
       = calls (log s)
         ++ page_requests (fun p => ReqCards query p 250) 1 k.
Proof.
  unfold search_cards.
  destruct (post_final _ _ _
              (search_cards_loop_pages rate_limit_delay A http query
                 max_pages (S (Z.to_nat max_pages)) 1 [] s ltac:(lia)))
    as [s' [Hfin [k [Hk Hc]]]].
  exists s', k. split; [exact Hfin|]. split; [lia|exact Hc].
Qed.

Lemma cards_page_acc {A} (all_cards : list A) response_data :
  match cards_page all_cards response_data with
  | CBreak acc | CNext acc => acc = all_cards ++ get_data response_data
  end.
Proof.
  unfold cards_page. destruct response_data as [[[d|] c t]|]; cbn;
    try (rewrite app_nil_r; reflexivity).
  destruct d as [|x d]; cbn; [rewrite app_nil_r; reflexivity|].
  destruct c, t; try reflexivity.
  destruct (_ >=? _); reflexivity.
Qed.

Lemma sets_page_acc page all_sets response_data :
  match sets_page page all_sets response_data with
  | SReturnEmpty => True
  | SBreak acc | SNext acc => acc = all_sets ++ get_data response_data
  end.
Proof.
  unfold sets_page. destruct response_data as [[[d|] c t]|]; cbn;
    try (destruct (page =? 1); [exact I|rewrite app_nil_r; reflexivity]).
  destruct d as [|x d]; cbn; [rewrite app_nil_r; reflexivity|].
  destruct c, t; try reflexivity.
  destruct (_ >=? _); reflexivity.
Qed.

Lemma sets_page_empty_inv page all_sets response_data :
  sets_page page all_sets response_data = SReturnEmpty ->
  page = 1 /\ no_data response_data = true.
Proof.
  unfold sets_page. destruct (no_data response_data).
  - destruct (page =? 1) eqn:E; [|discriminate].
    apply Z.eqb_eq in E. auto.
  - destruct (is_empty _); [discriminate|].
    destruct (counts _) as [[c t]|]; [|discriminate].
    destruct (_ >=? _); discriminate.
Qed.

Section ReliableServer.

Variable rate_limit_delay : Q.

(** Against a server that answers every page request with a 200, the card
    search returns the records of the pages it asked for, in order. *)
Lemma search_cards_loop_collects A
      (http : nat -> request -> outcome (page_response A))
      (query : str) (max_pages : Z) (serve : Z -> page_response A) :
  (forall n p,
     http n (ReqCards query p 250) = HttpResponse 200 (Some (serve p))) ->
  forall fuel page all_cards s,
    (Z.to_nat (max_pages + 1 - page) < fuel)%nat ->
    exists s' k,
      search_cards_loop rate_limit_delay A http fuel query max_pages
                        page all_cards s
      = Ret (all_cards ++ page_data serve page k) s'
      /\ (k <= Z.to_nat (max_pages + 1 - page))%nat
      /\ calls (log s')
         = calls (log s)
           ++ page_requests (fun p => ReqCards query p 250) page k
      /\ gets (log s')
         = gets (log s)
           ++ page_requests (fun p => ReqCards query p 250) page k.
Proof.
  intro H. induction fuel as [|fuel IH]; intros page acc s Hfuel; [lia|].
  cbn [search_cards_loop].
  destruct (page <=? max_pages) eqn:Hle.
  2:{ exists s, 0%nat. cbn. rewrite !app_nil_r. repeat split. lia. }
  apply Z.leb_le in Hle. unfold bind.
  rewrite safe_api_call_200 with (b := serve page); [|apply H|lia].
  pose proof (cards_page_acc acc (Some (serve page))) as Hacc.
  destruct (cards_page acc (Some (serve page))) as [acc'|acc'].
  - eexists. exists 1%nat. cbn [page_data page_requests].
    rewrite app_nil_r, <- Hacc. split; [reflexivity|]. split; [lia|].
    cbn [log]. rewrite calls_app, gets_app. cbn. auto.
  - destruct (IH (page + 1) acc'
                 (mkState (S (sent s))
                    (log s ++ [EvCall (ReqCards query page 250);
                               EvGet (ReqCards query page 250)])))
      as [s' [k [Hrun [Hk [Hc Hg]]]]]; [lia|].
    exists s', (S k). rewrite Hrun. cbn [page_data page_requests].
    rewrite Hacc, <- app_assoc. split; [reflexivity|]. split; [lia|].
    rewrite Hc, Hg. cbn [log]. rewrite calls_app, gets_app. cbn.
    rewrite <- !app_assoc. auto.
Qed.

(** The same for the sets listing, when it returns. *)
Lemma get_all_set_names_loop_collects
      (http : nat -> request -> outcome (page_response set_descriptor))
      (serve : Z -> page_response set_descriptor) :
  (forall n p, http n (ReqSets p 250) = HttpResponse 200 (Some (serve p))) ->
  forall fuel page all_sets s r s',
    1 <= page ->
    get_all_set_names_loop rate_limit_delay http fuel page all_sets s
    = Ret r s' ->
    (page = 1 /\ no_data (Some (serve 1)) = true /\ r = RetEmptyList)
    \/ exists k,
         (1 <= k <= fuel)%nat
         /\ r = RetPair (map sd_name (all_sets ++ page_data serve page k))
                        (all_sets ++ page_data serve page k)
         /\ calls (log s')
            = calls (log s) ++ page_requests (fun p => ReqSets p 250) page k
         /\ gets (log s')
            = gets (log s) ++ page_requests (fun p => ReqSets p 250) page k.
Proof.
  intro H. induction fuel as [|fuel IH]; intros page acc s r s' Hpage Hrun;
    [discriminate Hrun|].
  cbn [get_all_set_names_loop] in Hrun. unfold bind in Hrun.
  rewrite safe_api_call_200 with (b := serve page) in Hrun;
    [|apply H|lia].
  pose proof (sets_page_acc page acc (Some (serve page))) as Hacc.
  destruct (sets_page page acc (Some (serve page))) as [|acc'|acc'] eqn:Hp.
  - left. apply sets_page_empty_inv in Hp. destruct Hp as [-> Hn].
    inversion Hrun. auto.
  - right. exists 1%nat. inversion Hrun; subst.
    cbn [page_data page_requests]. rewrite app_nil_r.
    split; [lia|]. split; [reflexivity|].
    cbn [log]. rewrite calls_app, gets_app. cbn. auto.
  - right.
    apply IH in Hrun; [|lia].
    destruct Hrun as [[Hpage1 _]|[k [Hk [Hr [Hc Hg]]]]]; [lia|].
    exists (S k). cbn [page_data page_requests].
    rewrite Hacc, <- app_assoc in Hr. split; [lia|].
    split; [exact Hr|].
    rewrite Hc, Hg. cbn [log]. rewrite calls_app, gets_app. cbn.
    rewrite <- !app_assoc. auto.
Qed.

End ReliableServer.

(** X8.  Against a server that answers every page request with a 200,
    [search_cards] returns exactly the records of the pages 1, ..., k it
    asked for, in page order, nothing lost and nothing twice; it issues one
    HTTP request per page and k is at most [max_pages]. *)
Theorem search_cards_collects_pages (rate_limit_delay : Q) (A : Type)
        (http : nat -> request -> outcome (page_response A))
        (query : str) (max_pages : Z) (serve : Z -> page_response A)
        (s : state) :
  (forall n p,
     http n (ReqCards query p 250) = HttpResponse 200 (Some (serve p))) ->
  exists s' k,
    search_cards rate_limit_delay A http query max_pages s
    = Ret (page_data serve 1 k) s'
    /\ (k <= Z.to_nat max_pages)%nat
    /\ calls (log s')
       = calls (log s) ++ page_requests (fun p => ReqCards query p 250) 1 k
    /\ gets (log s')
       = gets (log s) ++ page_requests (fun p => ReqCards query p 250) 1 k.
Proof.
  intro H. unfold search_cards.
  destruct (search_cards_loop_collects rate_limit_delay A http query
              max_pages serve H (S (Z.to_nat max_pages)) 1 [] s
              ltac:(lia))
    as [s' [k [Hrun [Hk Hlog]]]].
  exists s', k. split; [exact Hrun|]. split; [lia|exact Hlog].
Qed.

Lemma search_cards_collects_pages_witness :
  exists s' k,
    search_cards 1 unit (two_pages tt) (py "name:Charizard") 10 init
    = Ret (page_data
             (fun _ => mkPage (Some (repeat tt 250)) (Some 250) (Some 500))
             1 k) s'
    /\ (k <= Z.to_nat 10)%nat
    /\ calls (log s')
       = calls (log init)
         ++ page_requests (fun p => ReqCards (py "name:Charizard") p 250) 1 k
    /\ gets (log s')
       = gets (log init)
         ++ page_requests (fun p => ReqCards (py "name:Charizard") p 250) 1 k.
Proof.
  apply (search_cards_collects_pages 1 unit (two_pages tt)
           (py "name:Charizard") 10
           (fun _ => mkPage (Some (repeat tt 250)) (Some 250) (Some 500))
           init).
  intros n p. reflexivity.
Defined.

(** X9.  Against a server that answers every page request with a 200,
    whatever [get_all_set_names] returns is either [[]], when page 1 has no
    ['data'], or the pair built from exactly the records of the pages
    1, ..., k it asked for, in page order, with one HTTP request per page. *)
Theorem get_all_set_names_collects_pages (rate_limit_delay : Q)
        (http : nat -> request -> outcome (page_response set_descriptor))
        (serve : Z -> page_response set_descriptor)
        (fuel : nat) (s : state) (r : sets_return) (s' : state) :
  (forall n p, http n (ReqSets p 250) = HttpResponse 200 (Some (serve p))) ->
  get_all_set_names rate_limit_delay http fuel s = Ret r s' ->
  (no_data (Some (serve 1)) = true /\ r = RetEmptyList)
  \/ exists k,
       (1 <= k <= fuel)%nat
       /\ r = RetPair (map sd_name (page_data serve 1 k))
                      (page_data serve 1 k)
       /\ calls (log s')
          = calls (log s) ++ page_requests (fun p => ReqSets p 250) 1 k
       /\ gets (log s')
          = gets (log s) ++ page_requests (fun p => ReqSets p 250) 1 k.
Proof.
  intros H Hrun. unfold get_all_set_names in Hrun.
  destruct (get_all_set_names_loop_collects rate_limit_delay http serve H
              fuel 1 [] s r s' ltac:(lia) Hrun)
    as [[_ Hl]|Hr]; [left; exact Hl|right; exact Hr].
Qed.

Lemma get_all_set_names_collects_pages_witness :
  (no_data (Some (mkPage (Some [mkSet (Some (py "Jungle")) []])
                         (Some 1) (Some 1))) = true
   /\ RetPair [Some (py "Jungle")] [mkSet (Some (py "Jungle")) []]
      = RetEmptyList)
  \/ exists k,
       (1 <= k <= 4)%nat
       /\ RetPair [Some (py "Jungle")] [mkSet (Some (py "Jungle")) []]
          = RetPair
              (map sd_name
                 (page_data
                    (fun _ => mkPage (Some [mkSet (Some (py "Jungle")) []])
                                     (Some 1) (Some 1)) 1 k))
              (page_data
                 (fun _ => mkPage (Some [mkSet (Some (py "Jungle")) []])
                                  (Some 1) (Some 1)) 1 k)
       /\ calls (log (mkState 1 [EvCall (ReqSets 1 250);
                                 EvGet (ReqSets 1 250)]))
          = calls (log init) ++ page_requests (fun p => ReqSets p 250) 1 k
       /\ gets (log (mkState 1 [EvCall (ReqSets 1 250);
                                EvGet (ReqSets 1 250)]))
          = gets (log init) ++ page_requests (fun p => ReqSets p 250) 1 k.
Proof.
  apply (get_all_set_names_collects_pages 1
           (serving (fun _ => mkPage (Some [mkSet (Some (py "Jungle")) []])
                                     (Some 1) (Some 1)))
           (fun _ => mkPage (Some [mkSet (Some (py "Jungle")) []])
                            (Some 1) (Some 1))
           4 init
           (RetPair [Some (py "Jungle")] [mkSet (Some (py "Jungle")) []])
           (mkState 1 [EvCall (ReqSets 1 250); EvGet (ReqSets 1 250)])).
  - intros n p. reflexivity.
  - reflexivity.
Defined.

(** X10.  A fetch that fails after page 1 ends the card search without any
    error: when page 1 gives records and does not complete the search, and
    the request for page 2 gets a status that is not retried, [search_cards]
    returns the records of page 1 as if the data had ended there. *)
Theorem search_cards_later_failure_truncates (rate_limit_delay : Q)
        (A : Type) (http : nat -> request -> outcome (page_response A))
        (query : str) (max_pages : Z) (s : state)
        (page1 : page_response A) (all_cards : list A)
        (c : Z) (body : option (page_response A)) :
  http (sent s) (ReqCards query 1 250) = HttpResponse 200 (Some page1) ->
  cards_page [] (Some page1) = CNext all_cards ->
  http (S (sent s)) (ReqCards query 2 250) = HttpResponse c body ->
  c <> 200 -> c <> 429 -> 2 <= max_pages ->
  exists s',
    search_cards rate_limit_delay A http query max_pages s
    = Ret all_cards s'
    /\ all_cards = get_data (Some page1)
    /\ calls (log s')
       = calls (log s) ++ [ReqCards query 1 250; ReqCards query 2 250].
Proof.
  intros H1 Hp H2 Hc200 Hc429 Hm. unfold search_cards.
  destruct (Z.to_nat max_pages) as [|[|n]] eqn:En; try lia.
  cbn [search_cards_loop].
  assert (E1 : (1 <=? max_pages) = true) by (apply Z.leb_le; lia).
  assert (E2 : (1 + 1 <=? max_pages) = true) by (apply Z.leb_le; lia).
  rewrite E1. unfold bind at 1.
  rewrite safe_api_call_200 with (b := page1); [|exact H1|lia].
  rewrite Hp, E2. unfold bind at 1.
  rewrite safe_api_call_status with (c := c) (body := body);
    [|exact H2|exact Hc200|exact Hc429|lia].
  eexists. split; [reflexivity|]. split.
  - pose proof (cards_page_acc [] (Some page1)) as Ha.
    rewrite Hp in Ha. exact Ha.
  - cbn [log]. rewrite !calls_app. cbn. rewrite <- app_assoc. reflexivity.
Qed.

Lemma search_cards_later_failure_truncates_witness :
  exists s',
    search_cards 1 unit (first_page_only [tt; tt] 500) [] 10 init
    = Ret [tt; tt] s'
    /\ [tt; tt] = get_data (Some (mkPage (Some [tt; tt]) None None))
    /\ calls (log s')
       = calls (log init) ++ [ReqCards [] 1 250; ReqCards [] 2 250].
Proof.
  apply (search_cards_later_failure_truncates 1 unit
           (first_page_only [tt; tt] 500) [] 10 init
           (mkPage (Some [tt; tt]) None None) [tt; tt] 500 None);
    first [reflexivity | discriminate | lia].
Defined.

(** X11.  The sets listing treats a failure after page 1 as the end of the
    data: when page 1 gives records and does not complete the listing, and
    the request for page 2 gets a status that is not retried,
    [get_all_set_names] returns the pair built from page 1 alone. *)
Theorem get_all_set_names_later_failure_truncates (rate_limit_delay : Q)
        (http : nat -> request -> outcome (page_response set_descriptor))
        (fuel : nat) (s : state)
        (page1 : page_response set_descriptor)
        (all_sets : list set_descriptor)
        (c : Z) (body : option (page_response set_descriptor)) :
  http (sent s) (ReqSets 1 250) = HttpResponse 200 (Some page1) ->
  sets_page 1 [] (Some page1) = SNext all_sets ->
  http (S (sent s)) (ReqSets 2 250) = HttpResponse c body ->
  c <> 200 -> c <> 429 -> (2 <= fuel)%nat ->
  exists s',
    get_all_set_names rate_limit_delay http fuel s
    = Ret (RetPair (map sd_name all_sets) all_sets) s'
    /\ all_sets = get_data (Some page1)
    /\ calls (log s') = calls (log s) ++ [ReqSets 1 250; ReqSets 2 250].
Proof.
  intros H1 Hp H2 Hc200 Hc429 Hfuel. unfold get_all_set_names.
  destruct fuel as [|[|fuel]]; try lia.
  cbn [get_all_set_names_loop]. unfold bind at 1.
  rewrite safe_api_call_200 with (b := page1); [|exact H1|lia].
  rewrite Hp. unfold bind at 1.
  rewrite safe_api_call_status with (c := c) (body := body);
    [|exact H2|exact Hc200|exact Hc429|lia].
  cbn [sets_page no_data]. change (1 + 1 =? 1) with false. cbv iota.
  eexists. split; [reflexivity|]. split.
  - pose proof (sets_page_acc 1 [] (Some page1)) as Ha.
    rewrite Hp in Ha. exact Ha.
  - cbn [log]. rewrite !calls_app. cbn. rewrite <- app_assoc. reflexivity.
Qed.

Lemma get_all_set_names_later_failure_truncates_witness :
  exists s',
    get_all_set_names 1 (first_page_only [mkSet (Some (py "Jungle")) []] 503)
                      2 init
    = Ret (RetPair (map sd_name [mkSet (Some (py "Jungle")) []])
                   [mkSet (Some (py "Jungle")) []]) s'
    /\ [mkSet (Some (py "Jungle")) []]
       = get_data (Some (mkPage (Some [mkSet (Some (py "Jungle")) []])
                                None None))
    /\ calls (log s') = calls (log init) ++ [ReqSets 1 250; ReqSets 2 250].
Proof.
  apply (get_all_set_names_later_failure_truncates 1
           (first_page_only [mkSet (Some (py "Jungle")) []] 503) 2 init
           (mkPage (Some [mkSet (Some (py "Jungle")) []]) None None)
           [mkSet (Some (py "Jungle")) []] 503 None);
    first [reflexivity | discriminate | lia].
Defined.

Section SetsTermination.

Variable rate_limit_delay : Q.
Variable http : nat -> request -> outcome (page_response set_descriptor).
Variables c t : Z.
Hypothesis c_pos : 0 < c.
Hypothesis consistent :
  forall n r b, http n r = HttpResponse 200 (Some b) ->
                counts (Some b) = Some (c, t).

Lemma page_count_next page : 1 <= page -> c * page < t ->
  page + 1 <= page_count c t.
Proof.
  intros Hp Hlt. unfold page_count.
  apply Z.le_trans with ((t + c - 1) / c); [|apply Z.le_max_r].
  apply Z.div_le_lower_bound; [exact c_pos|]. nia.
Qed.

Lemma get_all_set_names_loop_stops :
  forall fuel page all_sets s,
    1 <= page <= page_count c t ->
    (Z.to_nat (page_count c t + 1 - page) <= fuel)%nat ->
    post (get_all_set_names_loop rate_limit_delay http fuel page all_sets) s
         (fun _ s' =>
            (List.length (calls (log s'))
             <= List.length (calls (log s))
                + Z.to_nat (page_count c t + 1 - page))%nat)
         (fun s' =>
            (List.length (calls (log s'))
             <= List.length (calls (log s))
                + Z.to_nat (page_count c t + 1 - page))%nat).
Proof.
  induction fuel as [|fuel IH]; intros page acc s Hpage Hfuel; [lia|].
  cbn [get_all_set_names_loop]. apply post_bind.
  eapply post_weaken; [| |apply safe_api_call_post_200].
  - intros rd s1 [Hc Hprov]. cbv beta.
    assert (Hlen : List.length (calls (log s1))
                   = S (List.length (calls (log s))))
      by (rewrite Hc, length_app; cbn; lia).
    destruct (sets_page page acc rd) as [|acc'|acc'] eqn:Hp.
    + apply post_ret. lia.
    + apply post_ret. lia.
    + assert (Hnext : exists a, sets_page page acc rd = SNext a) by eauto.
      apply sets_page_next_iff in Hnext. destruct Hnext as [Hn [_ Hcnt]].
      destruct rd as [b|]; [|discriminate Hn].
      destruct (Hprov b eq_refl) as [n Hb].
      pose proof (Hcnt c t (consistent n _ b Hb)) as Hlt.
      pose proof (page_count_next page ltac:(lia) Hlt) as Hk.
      eapply post_weaken; [| |apply IH; lia]; cbv beta; intros; lia.
  - intros s1 Hc. cbv beta in Hc. rewrite Hc, length_app. cbn. lia.
Qed.

End SetsTermination.

(** X12.  The sets listing stops against every server whose 200 responses
    all report the same [count = c > 0] and [totalCount = t]: it asks for
    at most [max(1, ceil(t / c))] pages, however the server behaves
    otherwise (failures, empty pages, rate limiting). *)
Theorem get_all_set_names_stops (rate_limit_delay : Q)
        (http : nat -> request -> outcome (page_response set_descriptor))
        (c t : Z) (fuel : nat) (s : state) :
  0 < c ->
  (forall n r b, http n r = HttpResponse 200 (Some b) ->
                 counts (Some b) = Some (c, t)) ->
  (Z.to_nat (page_count c t) <= fuel)%nat ->
  exists s',
    final (get_all_set_names rate_limit_delay http fuel s) = Some s'
    /\ (List.length (calls (log s'))
        <= List.length (calls (log s)) + Z.to_nat (page_count c t))%nat.
Proof.
  intros Hc Hcons Hfuel. apply post_final. unfold get_all_set_names.
  pose proof (get_all_set_names_loop_stops rate_limit_delay http c t Hc
                Hcons fuel 1 [] s) as H.
  replace (page_count c t + 1 - 1) with (page_count c t) in H by lia.
  apply H; [|exact Hfuel].
  unfold page_count. lia.
Qed.

Lemma get_all_set_names_stops_witness :
  exists s',
    final (get_all_set_names 1 (two_pages (mkSet None [])) 2 init) = Some s'
    /\ (List.length (calls (log s'))
        <= List.length (calls (log init)) + Z.to_nat (page_count 250 500))%nat.
Proof.
  apply (get_all_set_names_stops 1 (two_pages (mkSet None [])) 250 500 2
           init).
  - lia.
  - intros n r b H. inversion H. reflexivity.
  - vm_compute. lia.
Defined.

(** ** The resolver: tiers after the exact match, and the failure case *)

Lemma first_such_find {A} (p : A -> bool) l x :
  first_such p l x -> find p l = Some x.
Proof.
  intros [l1 [l2 [Hl [Hx Hl1]]]]. subst l.
  induction l1 as [|y l1 IH]; cbn [app find].
  - rewrite Hx. reflexivity.
  - rewrite (Hl1 y (or_introl eq_refl)). apply IH.
    intros z Hz. apply Hl1. right. exact Hz.
Qed.

Lemma find_none_iff {A} (p : A -> bool) l :
  find p l = None <-> forall x, In x l -> p x = false.
Proof.
  split; [apply find_none|].
  induction l as [|y l IH]; intro H; cbn [find]; [reflexivity|].
  rewrite (H y (or_introl eq_refl)). apply IH.
  intros x Hx. apply H. right. exact Hx.
Qed.

Lemma filter_nil_iff {A} (p : A -> bool) l :
  filter p l = [] <-> forall x, In x l -> p x = false.
Proof.
  induction l as [|y l IH]; cbn [filter].
  - split; [intros _ x []|reflexivity].
  - destruct (p y) eqn:Hy; split.
    + discriminate.
    + intro H. specialize (H y (or_introl eq_refl)). congruence.
    + intros H x [Hx|Hx]; [subst x; exact Hy|apply IH; assumption].
    + intro H. apply IH. intros x Hx. apply H. right. exact Hx.
Qed.

Lemma promo_scan_none_iff target_name l :
  promo_scan target_name l = inr None
  <-> forall x, In x l -> promo_true target_name x = false.
Proof.
  induction l as [|y l IH]; cbn [promo_scan].
  - split; [intros _ x []|reflexivity].
  - rewrite promo_match_total. cbn [bind_exn].
    destruct (promo_true target_name y) eqn:Hy; split.
    + discriminate.
    + intro H. specialize (H y (or_introl eq_refl)). congruence.
    + intros H x [Hx|Hx]; [subst x; exact Hy|apply IH; assumption].
    + intro H. apply IH. intros x Hx. apply H. right. exact Hx.
Qed.

Lemma token_overlap_none_iff lower target_name l :
  token_overlap lower target_name l = None
  <-> forall y, In y l ->
        matched_terms lower (re_split (lower target_name)) y = 0%nat.
Proof.
  pose proof (token_overlap_spec lower target_name l) as H.
  destruct (token_overlap lower target_name l) as [s|]; split.
  - discriminate.
  - intro H0. destruct H as [l1 [l2 [Hl [Hpos _]]]].
    rewrite (H0 s) in Hpos; [lia|].
    subst l. apply in_or_app. right. left. reflexivity.
  - intros _. exact H.
  - reflexivity.
Qed.

(** X13.  When the target is not literally in the list, a candidate equal to
    it up to case is returned before any substring, promo or token
    candidate is looked at: the first such candidate in list order. *)
Theorem case_insensitive_match_is_second (lower : str -> str)
        (target_name : str) (available_sets : list str) (s : str) :
  ~ In target_name available_sets ->
  first_such (same_lower lower target_name) available_sets s ->
  find_closest_set_name lower target_name available_sets = inr (Some s).
Proof.
  intros Hnot Hs. unfold find_closest_set_name.
  destruct (mem target_name available_sets) eqn:Hmem.
  - apply mem_In in Hmem. contradiction.
  - rewrite (first_such_find _ _ _ Hs). reflexivity.
Qed.

Lemma case_insensitive_match_is_second_witness :
  find_closest_set_name ascii_lower (py "team rocket")
    [py "Team Rocket Returns"; py "TEAM ROCKET"; py "Team Rocket"]
  = inr (Some (py "TEAM ROCKET")).
Proof.
  apply (case_insensitive_match_is_second ascii_lower (py "team rocket")
           [py "Team Rocket Returns"; py "TEAM ROCKET"; py "Team Rocket"]
           (py "TEAM ROCKET")).
  - intros [H|[H|[H|[]]]]; discriminate H.
  - exists [py "Team Rocket Returns"], [py "Team Rocket"].
    split; [reflexivity|]. split; [reflexivity|].
    intros y [<-|[]]. reflexivity.
Defined.

(** X14.  The resolver answers [None] exactly when every tier fails: the
    target is not in the list, no candidate equals it up to case, the promo
    rule (if the target contains "Black Star Promos") accepts no candidate,
    no candidate contains the target up to case, and no candidate shares a
    token with it.  In particular it answers [None] on the empty list. *)
Theorem resolver_none_iff (lower : str -> str) (target_name : str)
        (available_sets : list str) :
  (find_closest_set_name lower target_name available_sets = inr None
   <-> (~ In target_name available_sets
        /\ (forall s, In s available_sets ->
              same_lower lower target_name s = false)
        /\ (contains BLACK_STAR_PROMOS target_name = true ->
            forall s, In s available_sets ->
              promo_true target_name s = false)
        /\ (forall s, In s available_sets ->
              partial_match lower target_name s = false)
        /\ (forall s, In s available_sets ->
              matched_terms lower (re_split (lower target_name)) s
              = 0%nat)))
  /\ find_closest_set_name lower target_name [] = inr None.
Proof.
  split.
  2:{ unfold find_closest_set_name. cbn [mem existsb find promo_scan].
      destruct (contains BLACK_STAR_PROMOS target_name); reflexivity. }
  unfold find_closest_set_name.
  destruct (mem target_name available_sets) eqn:Hmem.
  { apply mem_In in Hmem. split; [discriminate|]. intros [H _].
    contradiction. }
  assert (Hnot : ~ In target_name available_sets).
  { intro H. apply mem_In in H. congruence. }
  destruct (find (same_lower lower target_name) available_sets)
    as [s|] eqn:Hfind.
  { split; [discriminate|]. intros [_ [H _]].
    apply find_none_iff in H. congruence. }
  rewrite find_none_iff in Hfind.
  pose proof (promo_scan_spec target_name available_sets) as Hspec.
  pose proof (promo_scan_none_iff target_name available_sets) as Hpn.
  pose proof (token_overlap_none_iff lower target_name available_sets)
    as [Ht1 Ht2].
  destruct (contains BLACK_STAR_PROMOS target_name).
  - destruct (promo_scan target_name available_sets) as [e|[s|]];
      [destruct Hspec| |]; cbn [bind_exn].
    + split; [discriminate|]. intros [_ [_ [H _]]].
      specialize (H eq_refl). apply Hpn in H. discriminate H.
    + destruct Hpn as [Hpn _]. specialize (Hpn eq_refl).
      destruct (filter (partial_match lower target_name) available_sets)
        as [|m rest] eqn:Hf; cbn [is_empty negb index0 bind_exn].
      * rewrite filter_nil_iff in Hf. split.
        -- intro H. inversion H as [H1]. repeat split; auto.
        -- intros [_ [_ [_ [_ H]]]]. rewrite (Ht2 H). reflexivity.
      * split; [discriminate|]. intros [_ [_ [_ [H _]]]].
        apply filter_nil_iff in H. congruence.
  - cbn [bind_exn].
    destruct (filter (partial_match lower target_name) available_sets)
      as [|m rest] eqn:Hf; cbn [is_empty negb index0 bind_exn].
    + rewrite filter_nil_iff in Hf. split.
      * intro H. inversion H as [H1].
        repeat split; auto; discriminate.
      * intros [_ [_ [_ [_ H]]]]. rewrite (Ht2 H). reflexivity.
    + split; [discriminate|]. intros [_ [_ [_ [H _]]]].
      apply filter_nil_iff in H. congruence.
Qed.

Lemma contains_nil s : contains [] s = true.
Proof. destruct s; reflexivity. Qed.

(** X15.  An empty target is a substring of every name: when no canonical
    name has an empty lower-case form, the empty target resolves to the
    first name of the list. *)
Theorem empty_target_resolves_to_first (lower : str -> str)
        (first : str) (rest : list str) :
  lower [] = [] ->
  (forall s, In s (first :: rest) -> lower s <> []) ->
  find_closest_set_name lower [] (first :: rest) = inr (Some first).
Proof.
  intros Hl Hne. unfold find_closest_set_name.
  assert (Hmem : mem [] (first :: rest) = false).
  { destruct (mem [] (first :: rest)) eqn:E; [|reflexivity].
    apply mem_In in E. exfalso. apply (Hne [] E). exact Hl. }
  rewrite Hmem.
  assert (Hfind : find (same_lower lower []) (first :: rest) = None).
  { apply find_none_iff. intros s Hs. unfold same_lower. rewrite Hl.
    destruct (str_eqb (lower s) []) eqn:E; [|reflexivity].
    apply str_eqb_eq in E. exfalso. apply (Hne s Hs). exact E. }
  rewrite Hfind.
  change (contains BLACK_STAR_PROMOS []) with false. cbn [bind_exn].
  assert (Hp : partial_match lower [] first = true)
    by (unfold partial_match; rewrite Hl; apply contains_nil).
  cbn [filter]. rewrite Hp. reflexivity.
Qed.

Lemma empty_target_resolves_to_first_witness :
  find_closest_set_name ascii_lower [] [py "Base"; py "Jungle"]
  = inr (Some (py "Base")).
Proof.
  apply (empty_target_resolves_to_first ascii_lower (py "Base") [py "Jungle"]).
  - reflexivity.
  - intros s [<-|[<-|[]]]; discriminate.
Defined.

(** ** The price extractor: which rows exist *)

Lemma dict_get_In k d v : dict_get k d = Some v -> In (k, v) d.
Proof.
  induction d as [|[k' v'] d IH]; cbn [dict_get]; [discriminate|].
  destruct (str_eqb k k') eqn:E.
  - intro H. inversion H; subst. apply str_eqb_eq in E. subst k'.
    left. reflexivity.
  - intro H. right. apply IH, H.
Qed.

Lemma is_not_none_iff v : is_not_none v = true <-> v <> JNull.
Proof.
  split; [apply is_not_none_true|].
  destruct v; try reflexivity. intro H. contradiction H. reflexivity.
Qed.

Lemma market_rows_spec now pd condition prices e :
  In e (market_rows now pd condition prices)
  <-> exists d market,
        prices = JDict d
        /\ dict_get (py "market") d = Some market
        /\ market <> JNull
        /\ e = mkEntry (pd_id pd) (pd_name pd) (pd_set pd) (pd_number pd)
                       (pd_rarity pd) condition market
                       (pd_updated_at pd) now.
Proof.
  unfold market_rows. split.
  - destruct prices as [| | | | |d]; try (intros []).
    destruct (dict_get (py "market") d) as [market|] eqn:Hg; [|intros []].
    destruct (is_not_none market) eqn:Hn; [|intros []].
    intros [He|[]]. exists d, market. apply is_not_none_iff in Hn. auto.
  - intros [d [market [-> [Hg [Hn ->]]]]]. rewrite Hg.
    apply is_not_none_iff in Hn. rewrite Hn. left. reflexivity.
Qed.

(** X16.  The market-only extraction yields exactly one row for each
    condition whose block is a dictionary with a non-null ["market"] value,
    and no other row: the row carries the card's fields, the condition and
    that market value.  So there are at most as many rows as conditions. *)
Theorem extract_market_rows (now : str) (pd : price_data)
        (e : price_entry) :
  (In e (extract_market now pd)
   <-> exists condition d market,
         In (condition, JDict d) (pd_prices pd)
         /\ dict_get (py "market") d = Some market
         /\ market <> JNull
         /\ e = mkEntry (pd_id pd) (pd_name pd) (pd_set pd) (pd_number pd)
                        (pd_rarity pd) condition market
                        (pd_updated_at pd) now)
  /\ (List.length (extract_market now pd)
      <= List.length (pd_prices pd))%nat.
Proof.
  split.
  - unfold extract_market. rewrite in_flat_map. split.
    + intros [[condition prices] [Hin He]]. cbn [fst snd] in He.
      apply market_rows_spec in He.
      destruct He as [d [market [-> H]]]. exists condition, d, market.
      split; [exact Hin|exact H].
    + intros [condition [d [market [Hin H]]]].
      exists (condition, JDict d). split; [exact Hin|].
      cbn [fst snd]. apply market_rows_spec. exists d, market.
      split; [reflexivity|exact H].
  - unfold extract_market.
    induction (pd_prices pd) as [|[condition prices] l IH];
      cbn [flat_map List.length]; [lia|].
    rewrite length_app.
    assert (H : (List.length (market_rows now pd condition prices) <= 1)%nat).
    { unfold market_rows. destruct prices; try (cbn; lia).
      destruct (dict_get (py "market") d) as [m|]; [|cbn; lia].
      destruct (is_not_none m); cbn; lia. }
    cbn [fst snd]. lia.
Qed.

(** X17.  The market-only mode is a restriction of the all-price-types
    mode: every row of the former appears in the latter with the price type
    ["market"], the same card fields, condition and price. *)
Theorem market_rows_among_flat_rows (now : str) (pd : price_data)
        (e : price_entry) :
  In e (extract_market now pd) ->
  In (mkFlat (e_id e) (e_name e) (e_set e) (e_number e) (e_rarity e)
             (e_condition e) (py "market") (e_price e)
             (e_updated_at e) (e_fetched_at e))
     (flatten_prices now pd).
Proof.
  unfold extract_market, flatten_prices. rewrite !in_flat_map.
  intros [[condition prices] [Hin He]]. cbn [fst snd] in He.
  apply market_rows_spec in He.
  destruct He as [d [market [-> [Hg [Hn ->]]]]].
  exists (condition, JDict d). split; [exact Hin|].
  cbn [fst snd flat_rows]. apply in_flat_map.
  exists (py "market", market). split; [apply dict_get_In, Hg|].
  cbn [fst snd]. apply is_not_none_iff in Hn. rewrite Hn.
  left. reflexivity.
Qed.

Lemma market_rows_among_flat_rows_witness :
  In (mkFlat (py "base1-4") (py "Charizard") (py "Base") (Some (py "4"))
             (py "Rare Holo") (py "holofoil") (py "market") (JNum 300)
             [] (py "2024-01-01 00:00:00"))
     (flatten_prices (py "2024-01-01 00:00:00")
        (mkPriceData (py "base1-4") (py "Charizard") (py "Base")
           (Some (py "4")) (py "Rare Holo")
           [(py "holofoil",
             JDict [(py "low", JNum 200); (py "market", JNum 300)])]
           [])).
Proof.
  apply (market_rows_among_flat_rows (py "2024-01-01 00:00:00")
           (mkPriceData (py "base1-4") (py "Charizard") (py "Base")
              (Some (py "4")) (py "Rare Holo")
              [(py "holofoil",
                JDict [(py "low", JNum 200); (py "market", JNum 300)])]
              [])
           (mkEntry (py "base1-4") (py "Charizard") (py "Base")
              (Some (py "4")) (py "Rare Holo") (py "holofoil") (JNum 300)
              [] (py "2024-01-01 00:00:00"))).
  left. reflexivity.
Defined.

(** ** The sort key *)



Lemma LocallySorted_weaken {A} (R1 R2 : A -> A -> Prop) l :
  (forall a b, R1 a b -> R2 a b) ->
  LocallySorted R1 l -> LocallySorted R2 l.
Proof.
  intros H. induction 1; constructor; auto.
Qed.

(** X19.  The set name is the primary key of the sort: in the sorted rows
    the set names never decrease from a row to the next, whatever the
    numbers and conditions. *)
Theorem sort_values_by_set_first (decimal : N -> option Z)
        (l : list price_entry) :
  LocallySorted (fun a b => str_compare (e_set a) (e_set b) <> Gt)
                (sort_values decimal l).
Proof.
  apply LocallySorted_weaken
    with (R1 := fun a b => row_leb decimal a b = true);
    [|apply sort_values_sorted].
  intros a b. unfold row_leb, row_compare.
  destruct (str_compare (e_set a) (e_set b)); cbn [lex];
    discriminate.
Qed.

(** ** The rest of the set tracker *)

Lemma str_eqb_refl a : str_eqb a a = true.
Proof. apply str_eqb_eq. reflexivity. Qed.

Lemma dict_find_set {V} (k k' : str) (v : V) d :
  dict_find k (dict_set k' v d)
  = if str_eqb k k' then Some v else dict_find k d.
Proof.
  induction d as [|[k0 v0] d IH]; cbn [dict_set dict_find].
  - reflexivity.
  - destruct (str_eqb k' k0) eqn:E1; cbn [dict_find].
    + apply str_eqb_eq in E1. subst k0.
      destruct (str_eqb k k'); reflexivity.
    + destruct (str_eqb k k0) eqn:E2.
      * apply str_eqb_eq in E2. subst k0.
        destruct (str_eqb k k') eqn:E3; [|reflexivity].
        apply str_eqb_eq in E3. subst k'.
        rewrite str_eqb_refl in E1. discriminate E1.
      * exact IH.
Qed.

(** X20.  A price dictionary returned by [SetTracker.get_card_prices]
    carries the id that was asked for, and its prices are the
    [tcgplayer.prices] of the card in the 200 response to the last request
    for that id. *)
Theorem get_card_prices_provenance (rate_limit_delay : Q)
        (hp : nat -> request -> outcome card_response)
        (card_id : str) (s s' : state) (pd : price_data) :
  get_card_prices rate_limit_delay hp card_id s = Ret (Some pd) s' ->
  pd_id pd = card_id
  /\ exists card tp,
       hp (pred (sent s')) (ReqCard card_id)
       = HttpResponse 200 (Some (mkCardResponse (Some card)))
       /\ cd_tcgplayer card = Some tp
       /\ tp_prices tp = Some (pd_prices pd).
Proof.
  unfold get_card_prices, bind. intro H.
  destruct (safe_api_call card_response hp rate_limit_delay
              (ReqCard card_id) 3 2 s) as [[rd|] s1|e s1|] eqn:Hcall;
    try discriminate H.
  apply safe_api_call_some in Hcall. destruct Hcall as [_ Hhttp].
  destruct rd as [[card|]]; cbn [cr_data] in H; try discriminate H.
  unfold ret in H. inversion H; subst s1. clear H.
  unfold price_data_of in H1.
  destruct (cd_tcgplayer card) as [tp|] eqn:Htp; [|discriminate H1].
  destruct (tp_prices tp) as [prices|] eqn:Hpr; [|discriminate H1].
  inversion H1; subst pd. cbn [pd_id pd_prices].
  split; [reflexivity|]. exists card, tp. auto.
Qed.

Lemma get_card_prices_provenance_witness :
  pd_id (mkPriceData (py "jungle-60") (py "Pikachu") (py "Jungle")
           (Some (py "60")) (py "Common")
           [(py "holofoil",
             JDict [(py "low", JNum 1); (py "market", JNum 2)])]
           (py "2024/01/01"))
  = py "jungle-60"
  /\ exists card tp,
       card_server (JNum 2)
         (pred (sent (mkState 1 [EvCall (ReqCard (py "jungle-60"));
                                 EvGet (ReqCard (py "jungle-60"))])))
         (ReqCard (py "jungle-60"))
       = HttpResponse 200 (Some (mkCardResponse (Some card)))
       /\ cd_tcgplayer card = Some tp
       /\ tp_prices tp
          = Some (pd_prices
                    (mkPriceData (py "jungle-60") (py "Pikachu") (py "Jungle")
                       (Some (py "60")) (py "Common")
                       [(py "holofoil",
                         JDict [(py "low", JNum 1); (py "market", JNum 2)])]
                       (py "2024/01/01"))).
Proof.
  apply (get_card_prices_provenance 1 (card_server (JNum 2))
           (py "jungle-60") init
           (mkState 1 [EvCall (ReqCard (py "jungle-60"));
                       EvGet (ReqCard (py "jungle-60"))])).
  reflexivity.
Defined.

Section SetTrackerFacts.

Variable rate_limit_delay : Q.
Variable lower : str -> str.
Variable now : str.
Variable hc : nat -> request -> outcome (page_response card_data).
Variable hp : nat -> request -> outcome card_response.

Let ok (e : price_entry) : Prop := e_price e <> JNull.

Lemma extract_market_ok pd : Forall ok (extract_market now pd).
Proof.
  apply Forall_forall. intros e He. unfold extract_market in He.
  apply in_flat_map in He. destruct He as [[condition prices] [_ He]].
  apply market_rows_spec in He.
  destruct He as [d [market [_ [_ [Hn ->]]]]]. exact Hn.
Qed.

Lemma get_card_prices_stops card_id s :
  post (get_card_prices rate_limit_delay hp card_id) s
       (fun _ _ => True) (fun _ => True).
Proof.
  unfold get_card_prices. apply post_bind.
  eapply post_weaken; [| |apply safe_api_call_post]; [|auto].
  intros [rd|] s1 _; [|apply post_ret; exact I].
  destruct (cr_data rd); apply post_ret; exact I.
Qed.

Lemma process_cards_post :
  forall total_cards all_price_data s,
    Forall ok all_price_data ->
    post (process_cards rate_limit_delay now hp total_cards all_price_data)
         s (fun rows _ => Forall ok rows) (fun _ => True).
Proof.
  induction total_cards as [|card rest IH]; intros acc s Hacc;
    cbn [process_cards]; [apply post_ret, Hacc|].
  apply post_bind.
  eapply post_weaken; [| |apply get_card_prices_stops]; [|auto].
  intros [pd|] s1 _; apply IH; [|exact Hacc].
  apply Forall_app. split; [exact Hacc|apply extract_market_ok].
Qed.

Lemma search_cards_stops A (http : nat -> request -> outcome (page_response A))
      query max_pages s :
  post (search_cards rate_limit_delay A http query max_pages) s
       (fun _ _ => True) (fun _ => True).
Proof.
  unfold search_cards.
  eapply post_weaken;
    [| |apply (search_cards_loop_post rate_limit_delay A http query
                 max_pages (S (Z.to_nat max_pages)) 1 [] s); lia]; auto.
Qed.

Lemma process_sets_post available_set_names :
  forall set_names all_price_data set_name_mapping s,
    Forall ok all_price_data ->
    post (process_sets rate_limit_delay lower now hc hp available_set_names
                       set_names all_price_data set_name_mapping)
         s (fun res _ => Forall ok (fst res)) (fun _ => True).
Proof.
  induction set_names as [|set_name rest IH]; intros acc mapping s Hacc;
    cbn [process_sets]; [apply post_ret, Hacc|].
  destruct (find_closest_set_name_cases lower set_name available_set_names)
    as [m [Hm _]].
  rewrite Hm. destruct (matched m) as [matched_set|]; [|apply IH, Hacc].
  cbv zeta. apply post_bind.
  eapply post_weaken; [| |apply search_cards_stops]; [|auto].
  intros total_cards s1 _. cbv beta.
  destruct (is_empty total_cards); [apply IH, Hacc|].
  apply post_bind.
  eapply post_weaken; [| |apply process_cards_post, Hacc]; [|auto].
  intros acc' s2 Hacc'. apply IH, Hacc'.
Qed.

End SetTrackerFacts.

(** X21.  Against any server the loops of [track_multiple_sets_to_csv] stop
    (the card search is bounded and the card loop is finite), and when rows
    are written there is at least one, none has a null price, and they are
    in the order of the sort key. *)
Theorem track_sets_rows (rate_limit_delay : Q) (lower : str -> str)
        (now : str)
        (hc : nat -> request -> outcome (page_response card_data))
        (hp : nat -> request -> outcome card_response)
        (decimal : N -> option Z)
        (available_set_names set_names : list str) (s : state) :
  match track_sets rate_limit_delay lower now hc hp decimal
                   available_set_names set_names s with
  | Ret (Some (rows, _)) _ =>
      rows <> []
      /\ Forall (fun e => e_price e <> JNull) rows
      /\ LocallySorted (fun a b => row_leb decimal a b = true) rows
  | Ret None _ => True
  | Exc _ _ => True
  | OutOfFuel => False
  end.
Proof.
  unfold track_sets, bind.
  pose proof (process_sets_post rate_limit_delay lower now hc hp
                available_set_names set_names [] [] s (Forall_nil _)) as H.
  unfold post in H.
  destruct (process_sets rate_limit_delay lower now hc hp
              available_set_names set_names [] [] s)
    as [[rows mapping] s1|e s1|]; [|exact I|exact H].
  cbn [fst] in H. destruct rows as [|e rows]; cbn [is_empty negb];
    [exact I|]. unfold ret.
  pose proof (sort_values_perm decimal (e :: rows)) as Hperm.
  split; [|split].
  - intro Hnil. rewrite Hnil in Hperm.
    apply Permutation_sym, Permutation_nil in Hperm. discriminate Hperm.
  - eapply Permutation_Forall; [exact Hperm|exact H].
  - apply sort_values_sorted.
Qed.

Section SetTrackerMapping.

Variable rate_limit_delay : Q.
Variable lower : str -> str.
Variable now : str.
Variable hc : nat -> request -> outcome (page_response card_data).
Variable hp : nat -> request -> outcome card_response.
Variable available_set_names : list str.

Lemma process_sets_mapping :
  forall set_names all_price_data set_name_mapping s rows mapping s',
    process_sets rate_limit_delay lower now hc hp available_set_names
                 set_names all_price_data set_name_mapping s
    = Ret (rows, mapping) s' ->
    forall n,
      dict_find n mapping
      = if mem n set_names
        then Some (resolved lower available_set_names n)
        else dict_find n set_name_mapping.
Proof.
  induction set_names as [|set_name rest IH];
    intros acc mapping0 s rows mapping s' H n; cbn [process_sets] in H.
  - inversion H; subst. reflexivity.
  - assert (Hstep : forall v,
              resolved lower available_set_names set_name = v ->
              (forall k, dict_find k mapping
                         = if mem k rest
                           then Some (resolved lower available_set_names k)
                           else dict_find k (dict_set set_name v mapping0)) ->
              dict_find n mapping
              = if mem n (set_name :: rest)
                then Some (resolved lower available_set_names n)
                else dict_find n mapping0).
    { intros v Hv Hk. rewrite Hk, dict_find_set.
      unfold mem. cbn [existsb]. fold (mem n rest).
      destruct (mem n rest); [rewrite orb_true_r; reflexivity|].
      rewrite orb_false_r.
      destruct (str_eqb n set_name) eqn:E; [|reflexivity].
      apply str_eqb_eq in E. subst n. rewrite Hv. reflexivity. }
    unfold resolved in Hstep at 1.
    destruct (find_closest_set_name lower set_name available_set_names)
      as [e|m]; [discriminate H|].
    destruct (matched m) as [matched_set|].
    + cbv zeta in H. unfold bind in H.
      destruct (search_cards rate_limit_delay card_data hc
                  (set_query matched_set) 10 s)
        as [total_cards s1|e s1|]; try discriminate H.
      destruct (is_empty total_cards).
      * apply (Hstep matched_set eq_refl).
        intro k. eapply IH; exact H.
      * destruct (process_cards rate_limit_delay now hp total_cards acc s1)
          as [acc' s2|e s2|]; try discriminate H.
        apply (Hstep matched_set eq_refl).
        intro k. eapply IH; exact H.
    + apply (Hstep NOT_FOUND eq_refl).
      intro k. eapply IH; exact H.
Qed.

Lemma process_sets_unmatched :
  forall set_names all_price_data set_name_mapping s,
    (forall n, In n set_names ->
       exists m, find_closest_set_name lower n available_set_names = inr m
                 /\ matched m = None) ->
    process_sets rate_limit_delay lower now hc hp available_set_names
                 set_names all_price_data set_name_mapping s
    = Ret (all_price_data,
           fold_left (fun d n => dict_set n NOT_FOUND d) set_names
                     set_name_mapping) s.
Proof.
  induction set_names as [|set_name rest IH]; intros acc mapping s H;
    cbn [process_sets fold_left]; [reflexivity|].
  destruct (H set_name (or_introl eq_refl)) as [m [Hm Hn]].
  rewrite Hm, Hn. apply IH. intros n Hin. apply H. right. exact Hin.
Qed.

End SetTrackerMapping.

(** X22.  When the loop over the requested set names completes, the mapping
    has an entry for every requested name and for no other: the canonical
    name the resolver chose for it, or "Not found" when the resolver gave
    [None] or the empty string. *)
Theorem set_name_mapping_complete (rate_limit_delay : Q)
        (lower : str -> str) (now : str)
        (hc : nat -> request -> outcome (page_response card_data))
        (hp : nat -> request -> outcome card_response)
        (available_set_names set_names : list str)
        (s s' : state) (rows : list price_entry)
        (mapping : list (str * str)) :
  process_sets rate_limit_delay lower now hc hp available_set_names
               set_names [] [] s
  = Ret (rows, mapping) s' ->
  (forall n, In n set_names ->
     dict_find n mapping = Some (resolved lower available_set_names n))
  /\ (forall n, ~ In n set_names -> dict_find n mapping = None).
Proof.
  intro H.
  pose proof (process_sets_mapping rate_limit_delay lower now hc hp
                available_set_names set_names [] [] s rows mapping s' H)
    as Hm.
  split; intros n Hn; rewrite Hm.
  - apply mem_In in Hn. rewrite Hn. reflexivity.
  - destruct (mem n set_names) eqn:E; [|reflexivity].
    apply mem_In in E. contradiction.
Qed.

(** X23.  Requested names that do not resolve cost no request: when the
    resolver finds nothing for any of them, the loop over the requested
    names issues no request and no sleep (the log of requests and sleeps is
    left as it is), records "Not found" for each name and collects no row;
    the function, from the loop on, then takes the branch without price
    data and returns [None]. *)
Theorem unresolved_sets_make_no_request (rate_limit_delay : Q)
        (lower : str -> str) (now : str)
        (hc : nat -> request -> outcome (page_response card_data))
        (hp : nat -> request -> outcome card_response)
        (decimal : N -> option Z)
        (available_set_names set_names : list str) (s : state) :
  (forall n, In n set_names ->
     exists m, find_closest_set_name lower n available_set_names = inr m
               /\ matched m = None) ->
  (exists mapping,
     process_sets rate_limit_delay lower now hc hp available_set_names
                  set_names [] [] s
     = Ret ([], mapping) s
     /\ forall n, In n set_names -> dict_find n mapping = Some NOT_FOUND)
  /\ track_sets rate_limit_delay lower now hc hp decimal
                available_set_names set_names s
     = Ret None s.
Proof.
  intro H.
  pose proof (process_sets_unmatched rate_limit_delay lower now hc hp
                available_set_names set_names [] [] s H) as Hrun.
  split.
  - eexists. split; [exact Hrun|]. intros n Hn.
    pose proof (process_sets_mapping rate_limit_delay lower now hc hp
                  available_set_names set_names [] [] s _ _ _ Hrun n)
      as Hm.
    rewrite Hm. apply mem_In in Hn. rewrite Hn.
    destruct (H n (proj1 (mem_In n set_names) Hn)) as [m [Hr Hnone]].
    unfold resolved. rewrite Hr, Hnone. reflexivity.
  - unfold track_sets, bind. rewrite Hrun. reflexivity.
Qed.

Lemma set_name_mapping_complete_witness :
  (forall n, In n [py "jungle"; py "Atlantis"] ->
     dict_find n [(py "jungle", py "Jungle"); (py "Atlantis", NOT_FOUND)]
     = Some (resolved ascii_lower [py "Jungle"] n))
  /\ (forall n, ~ In n [py "jungle"; py "Atlantis"] ->
        dict_find n [(py "jungle", py "Jungle"); (py "Atlantis", NOT_FOUND)]
        = None).
Proof.
  apply (set_name_mapping_complete 1 ascii_lower []
           (failing_pages 404) (card_server JNull)
           [py "Jungle"] [py "jungle"; py "Atlantis"] init
           (mkState 1 [EvCall (ReqCards (set_query (py "Jungle")) 1 250);
                       EvGet (ReqCards (set_query (py "Jungle")) 1 250)])
           []).
  reflexivity.
Defined.

Lemma unresolved_sets_make_no_request_witness :
  (exists mapping,
     process_sets 1 ascii_lower [] two_cards (card_server (JNum 2))
                  [py "Jungle"] [py "Atlantis"] [] [] init
     = Ret ([], mapping) init
     /\ forall n, In n [py "Atlantis"] ->
          dict_find n mapping = Some NOT_FOUND)
  /\ track_sets 1 ascii_lower [] two_cards (card_server (JNum 2))
                ascii_decimal [py "Jungle"] [py "Atlantis"] init
     = Ret None init.
Proof.
  apply (unresolved_sets_make_no_request 1 ascii_lower [] two_cards
           (card_server (JNum 2)) ascii_decimal
           [py "Jungle"] [py "Atlantis"] init).
  intros n [<-|[]]. exists None. split; reflexivity.
Defined.

(** ** The single-card tracker *)

Lemma price_data_of_id card_id card pd :
  price_data_of card_id card = Some pd -> pd_id pd = card_id.
Proof.
  unfold price_data_of. destruct (cd_tcgplayer card) as [tp|]; [|discriminate].
  destruct (tp_prices tp); [|discriminate].
  intro H. inversion H. reflexivity.
Qed.

Section TrackerFacts.

Variable now : str.
Variable hc : nat -> request -> outcome (page_response card_data).
Variable hp : nat -> request -> outcome card_response.

(** One request, no retry and no sleep, whatever the status. *)
Lemma tracker_get_card_prices_step card_id s :
  well_formed (hp (sent s) (ReqCard card_id)) ->
  exists r,
    PokemonTCGPriceTracker.get_card_prices hp card_id s
    = Ret r (mkState (S (sent s)) (log s ++ [EvGet (ReqCard card_id)]))
    /\ forall pd, r = Some pd -> pd_id pd = card_id.
Proof.
  intro Hw. unfold PokemonTCGPriceTracker.get_card_prices, bind,
    requests_get.
  destruct (hp (sent s) (ReqCard card_id)) as [|c b]; [destruct Hw|].
  cbn [status_code well_formed] in *.
  destruct (c =? 200) eqn:E; cbn [negb].
  - apply Z.eqb_eq in E. specialize (Hw E).
    destruct b as [b|]; [|contradiction Hw; reflexivity].
    unfold response_json. cbn [json_body]. unfold ret.
    destruct (cr_data b) as [card|].
    + eexists. split; [reflexivity|]. intros pd Hpd.
      eapply price_data_of_id. exact Hpd.
    + eexists. split; [reflexivity|]. discriminate.
  - eexists. split; [reflexivity|]. discriminate.
Qed.

Lemma track_loop_pattern :
  (forall n r, well_formed (hp n r)) ->
  forall cards all_price_data saved s,
    exists res s',
      PokemonTCGPriceTracker.track_loop now hp cards all_price_data saved s
      = Ret res s'
      /\ gets (log s')
         = gets (log s) ++ map (fun c => ReqCard (cd_id c)) cards
      /\ sleeps (log s')
         = sleeps (log s) ++ repeat (1 # 2)%Q (List.length cards)
      /\ calls (log s') = calls (log s)
      /\ exists new,
           fst res = all_price_data ++ new
           /\ (List.length new <= List.length cards)%nat
           /\ Forall (fun pd => In (pd_id pd) (map cd_id cards)) new.
Proof.
  intro Hw. induction cards as [|card rest IH]; intros acc saved s;
    cbn [PokemonTCGPriceTracker.track_loop].
  - exists (acc, saved), s. cbn. rewrite !app_nil_r.
    repeat split. exists []. rewrite app_nil_r. repeat split; auto.
  - unfold bind at 1.
    destruct (tracker_get_card_prices_step (cd_id card) s (Hw _ _))
      as [r [Hrun Hid]].
    rewrite Hrun.
    set (s1 := mkState (S (sent s)) (log s ++ [EvGet (ReqCard (cd_id card))])).
    set (acc1 := match r with Some pd => acc ++ [pd] | None => acc end).
    set (saved1 := match r with
                   | Some pd =>
                       match PokemonTCGPriceTracker.save_price_data
                               now (Some pd) with
                       | Some rows => saved ++ [rows]
                       | None => saved
                       end
                   | None => saved
                   end).
    set (s2 := mkState (sent s1) (log s1 ++ [EvSleep (1 # 2)%Q])).
    destruct (IH acc1 saved1 s2)
      as [res [s' [Hloop [Hg [Hs [Hc [new [Hnew [Hlen Hall]]]]]]]]].
    exists res, s'. split.
    { destruct r as [pd|]; exact Hloop. }
    unfold s2, s1 in Hg, Hs, Hc. cbn [log] in Hg, Hs, Hc.
    rewrite !gets_app in Hg. rewrite !sleeps_app in Hs.
    rewrite !calls_app in Hc. cbn in Hg, Hs, Hc.
    rewrite ?app_nil_r in Hg. rewrite ?app_nil_r in Hs.
    rewrite ?app_nil_r in Hc.
    split; [rewrite Hg, <- app_assoc; reflexivity|].
    split; [rewrite Hs, <- app_assoc; reflexivity|].
    split; [exact Hc|].
    destruct r as [pd|].
    + exists (pd :: new). unfold acc1 in Hnew.
      rewrite Hnew, <- app_assoc. split; [reflexivity|].
      split; [cbn; lia|]. constructor.
      * left. symmetry. apply Hid. reflexivity.
      * eapply Forall_impl; [|exact Hall]. intros a Ha. right. exact Ha.
    + exists new. split; [exact Hnew|]. split; [cbn; lia|].
      eapply Forall_impl; [|exact Hall]. intros a Ha. right. exact Ha.
Qed.

(** One transport failure ends the loop with the exception. *)
Lemma track_loop_raises :
  forall pre card rest all_price_data saved s,
    (forall n r, (sent s <= n < sent s + List.length pre)%nat ->
                 well_formed (hp n r)) ->
    hp (sent s + List.length pre)%nat (ReqCard (cd_id card)) = HttpRaises ->
    exists s',
      PokemonTCGPriceTracker.track_loop now hp (pre ++ card :: rest)
                                        all_price_data saved s
      = Exc RequestException s'
      /\ sent s' = S (sent s + List.length pre).
Proof.
  induction pre as [|c0 pre IH]; intros card rest acc saved s Hw Hr;
    cbn [app PokemonTCGPriceTracker.track_loop List.length] in *.
  - rewrite Nat.add_0_r in Hr.
    unfold PokemonTCGPriceTracker.get_card_prices, bind, requests_get.
    rewrite Hr. eexists. split; [reflexivity|]. cbn. lia.
  - unfold bind at 1.
    destruct (tracker_get_card_prices_step (cd_id c0) s
                (Hw (sent s) (ReqCard (cd_id c0)) ltac:(lia)))
      as [r [Hrun _]].
    rewrite Hrun.
    set (s1 := mkState (S (sent s)) (log s ++ [EvGet (ReqCard (cd_id c0))])).
    set (s2 := mkState (sent s1) (log s1 ++ [EvSleep (1 # 2)%Q])).
    assert (Hs2 : sent s2 = S (sent s)) by reflexivity.
    destruct (IH card rest
                (match r with Some pd => acc ++ [pd] | None => acc end)
                (match r with
                 | Some pd =>
                     match PokemonTCGPriceTracker.save_price_data
                             now (Some pd) with
                     | Some rows => saved ++ [rows]
                     | None => saved
                     end
                 | None => saved
                 end) s2) as [s' [Hloop Hsent]].
    + intros n r0 Hn. apply Hw. rewrite Hs2 in Hn. lia.
    + rewrite Hs2. replace (S (sent s) + List.length pre)%nat
        with (sent s + S (List.length pre))%nat by lia. exact Hr.
    + exists s'. split; [destruct r; exact Hloop|]. rewrite Hsent, Hs2. lia.
Qed.

End TrackerFacts.

(** X24.  [track_cards] asks for the first page of the search only, then
    makes exactly one request per card of that page, in order, with no
    retry, and sleeps 0.5 s after every card; it keeps at most one price
    dictionary per card, each under the id of a card of the page. *)
Theorem track_cards_request_pattern (now : str)
        (hc : nat -> request -> outcome (page_response card_data))
        (hp : nat -> request -> outcome card_response)
        (query : str) (s : state)
        (search_results : page_response card_data)
        (cards : list card_data) :
  hc (sent s) (ReqCards query 1 250)
  = HttpResponse 200 (Some search_results) ->
  data search_results = Some cards ->
  (forall n r, well_formed (hp n r)) ->
  exists res s',
    PokemonTCGPriceTracker.track_cards now hc hp query s = Ret res s'
    /\ gets (log s')
       = gets (log s)
         ++ ReqCards query 1 250 :: map (fun c => ReqCard (cd_id c)) cards
    /\ sleeps (log s')
       = sleeps (log s) ++ repeat (1 # 2)%Q (List.length cards)
    /\ calls (log s') = calls (log s)
    /\ (List.length (fst res) <= List.length cards)%nat
    /\ Forall (fun pd => In (pd_id pd) (map cd_id cards)) (fst res).
Proof.
  intros Hs Hd Hw.
  unfold PokemonTCGPriceTracker.track_cards, bind at 1.
  unfold PokemonTCGPriceTracker.search_cards, bind, requests_get.
  rewrite Hs. cbn [status_code Z.eqb Pos.eqb negb json_body response_json].
  unfold ret. rewrite Hd.
  destruct (track_loop_pattern now hp Hw cards [] []
              (mkState (S (sent s)) (log s ++ [EvGet (ReqCards query 1 250)])))
    as [res [s' [Hrun [Hg [Hsl [Hc [new [Hnew [Hlen Hall]]]]]]]]].
  exists res, s'. split; [exact Hrun|].
  cbn [log] in Hg, Hsl, Hc.
  rewrite gets_app in Hg. rewrite sleeps_app in Hsl. rewrite calls_app in Hc.
  cbn in Hg, Hsl, Hc. rewrite ?app_nil_r in Hsl. rewrite ?app_nil_r in Hc.
  split; [rewrite Hg, <- app_assoc; reflexivity|].
  split; [exact Hsl|]. split; [exact Hc|].
  cbn [app] in Hnew. rewrite Hnew. split; assumption.
Qed.

Lemma track_cards_request_pattern_witness :
  exists res s',
    PokemonTCGPriceTracker.track_cards [] two_cards (card_server (JNum 2))
                                       (py "name:Pikachu") init
    = Ret res s'
    /\ gets (log s')
       = gets (log init)
         ++ ReqCards (py "name:Pikachu") 1 250
            :: map (fun c => ReqCard (cd_id c))
                   [sample_card (py "jungle-60") JNull;
                    sample_card (py "jungle-61") JNull]
    /\ sleeps (log s')
       = sleeps (log init)
         ++ repeat (1 # 2)%Q
                   (List.length [sample_card (py "jungle-60") JNull;
                                 sample_card (py "jungle-61") JNull])
    /\ calls (log s') = calls (log init)
    /\ (List.length (fst res)
        <= List.length [sample_card (py "jungle-60") JNull;
                        sample_card (py "jungle-61") JNull])%nat
    /\ Forall (fun pd =>
                In (pd_id pd)
                   (map cd_id [sample_card (py "jungle-60") JNull;
                               sample_card (py "jungle-61") JNull]))
              (fst res).
Proof.
  apply (track_cards_request_pattern [] two_cards (card_server (JNum 2))
           (py "name:Pikachu") init
           (mkPage (Some [sample_card (py "jungle-60") JNull;
                          sample_card (py "jungle-61") JNull])
                   (Some 2) (Some 2))
           [sample_card (py "jungle-60") JNull;
            sample_card (py "jungle-61") JNull]).
  - reflexivity.
  - reflexivity.
  - intros n [p ps|q p ps|card_id]; cbn; intro H;
      first [discriminate H | discriminate].
Defined.

(** X25.  [track_cards] has no error handling: when [requests.get] raises
    for one card, after any number of cards that were answered, the
    exception escapes and nothing of what was gathered is returned. *)
Theorem track_cards_aborts_on_failure (now : str)
        (hc : nat -> request -> outcome (page_response card_data))
        (hp : nat -> request -> outcome card_response)
        (query : str) (s : state)
        (search_results : page_response card_data)
        (pre : list card_data) (card : card_data) (rest : list card_data) :
  hc (sent s) (ReqCards query 1 250)
  = HttpResponse 200 (Some search_results) ->
  data search_results = Some (pre ++ card :: rest) ->
  (forall n r, (S (sent s) <= n < S (sent s) + List.length pre)%nat ->
               well_formed (hp n r)) ->
  hp (S (sent s) + List.length pre)%nat (ReqCard (cd_id card))
  = HttpRaises ->
  exists s',
    PokemonTCGPriceTracker.track_cards now hc hp query s
    = Exc RequestException s'
    /\ sent s' = (sent s + List.length pre + 2)%nat.
Proof.
  intros Hs Hd Hw Hr.
  unfold PokemonTCGPriceTracker.track_cards, bind at 1.
  unfold PokemonTCGPriceTracker.search_cards, bind, requests_get.
  rewrite Hs. cbn [status_code Z.eqb Pos.eqb negb json_body response_json].
  unfold ret. rewrite Hd.
  destruct (track_loop_raises now hp pre card rest [] []
              (mkState (S (sent s)) (log s ++ [EvGet (ReqCards query 1 250)]))
              Hw Hr) as [s' [Hrun Hsent]].
  exists s'. split; [exact Hrun|]. rewrite Hsent. cbn [sent]. lia.
Qed.

Lemma track_cards_aborts_on_failure_witness :
  exists s',
    PokemonTCGPriceTracker.track_cards [] two_cards cards_unreachable
                                       (py "name:Pikachu") init
    = Exc RequestException s'
    /\ sent s' = (sent init + List.length (@nil card_data) + 2)%nat.
Proof.
  apply (track_cards_aborts_on_failure [] two_cards cards_unreachable
           (py "name:Pikachu") init
           (mkPage (Some [sample_card (py "jungle-60") JNull;
                          sample_card (py "jungle-61") JNull])
                   (Some 2) (Some 2))
           [] (sample_card (py "jungle-60") JNull)
           [sample_card (py "jungle-61") JNull]).
  - reflexivity.
  - reflexivity.
  - intros n r H. cbn in H. lia.
  - reflexivity.
Defined.

(** ** The return value of the sets listing *)

Lemma sets_page_next_exits page all_sets response_data :
  (exists all_sets', sets_page page all_sets response_data = SNext all_sets')
  <-> exits page response_data = false.
Proof.
  unfold sets_page, exits.
  destruct (no_data response_data); cbn [orb].
  - split; [|discriminate]. intros [a H].
    destruct (page =? 1); discriminate H.
  - destruct (is_empty (get_data response_data)); cbn [orb].
    + split; [|discriminate]. intros [a H]. discriminate H.
    + destruct (counts response_data) as [[c t]|]; [|split; eauto].
      destruct (c * page >=? t); split; eauto; try discriminate.
      intros [a H]. discriminate H.
Qed.

Section SetsListingReturns.

Variable rate_limit_delay : Q.
Variable http : nat -> request -> outcome (page_response set_descriptor).
Variable serve : Z -> page_response set_descriptor.
Hypothesis reliable :
  forall n p, http n (ReqSets p 250) = HttpResponse 200 (Some (serve p)).

(** Against a server that answers every page request with a 200, the sets
    loop returns as soon as a page passes one of the exit tests: fuel for
    the pages up to that one is enough. *)
Lemma get_all_set_names_loop_returns :
  forall n fuel page all_sets s,
    exits (page + Z.of_nat n) (Some (serve (page + Z.of_nat n))) = true ->
    (n < fuel)%nat ->
    exists r s',
      get_all_set_names_loop rate_limit_delay http fuel page all_sets s
      = Ret r s'.
Proof.
  induction n as [|n IH]; intros fuel page acc s Hexit Hfuel;
    (destruct fuel as [|fuel]; [lia|]);
    cbn [get_all_set_names_loop]; unfold bind;
    (rewrite safe_api_call_200 with (b := serve page);
     [|apply reliable|lia]);
    destruct (sets_page page acc (Some (serve page))) as [|acc'|acc'] eqn:Hp;
    try (unfold ret; eauto; fail).
  - exfalso. replace (page + Z.of_nat 0) with page in Hexit by lia.
    assert (Hn : exists a, sets_page page acc (Some (serve page)) = SNext a)
      by eauto.
    apply sets_page_next_exits in Hn. congruence.
  - apply IH; [|lia].
    replace (page + 1 + Z.of_nat n) with (page + Z.of_nat (S n)) by lia.
    exact Hexit.
Qed.

End SetsListingReturns.

(** C10.  Once the fetch of page 1 has returned: if it gave no usable data
    ([None], or a response without ['data']), [get_all_set_names] returns
    the single list [[]], which the caller's two-target unpacking rejects
    with ValueError.  Otherwise it never returns [[]]: whatever it returns
    is the pair [(set_names, all_sets)] with one name per record,
    [set_names = [s.get('name') for s in all_sets]], which unpacks; and the
    pair is indeed returned, at once when page 1 passes an exit test of the
    loop, and, against a server that answers every page request with a 200,
    as soon as some page K does, with the records of the pages fetched.
    Unpacking succeeds on the pair only. *)
Theorem get_all_set_names_return_shapes
        (rate_limit_delay : Q)
        (http : nat -> request -> outcome (page_response set_descriptor))
        (fuel : nat) (s : state)
        (response_data : option (page_response set_descriptor))
        (s1 : state) :
  safe_api_call _ http rate_limit_delay (ReqSets 1 250) 3 2 s
  = Ret response_data s1 ->
  (no_data response_data = true ->
     get_all_set_names rate_limit_delay http (S fuel) s = Ret RetEmptyList s1
     /\ unpack2 RetEmptyList = inl ValueError)
  /\ (no_data response_data = false ->
      forall r s',
        get_all_set_names rate_limit_delay http (S fuel) s = Ret r s' ->
        exists all_sets,
          r = RetPair (map sd_name all_sets) all_sets
          /\ List.length (map sd_name all_sets) = List.length all_sets
          /\ unpack2 r = inr (map sd_name all_sets, all_sets))
  /\ (forall all_sets,
        sets_page 1 [] response_data = SBreak all_sets ->
        get_all_set_names rate_limit_delay http (S fuel) s
        = Ret (RetPair (map sd_name all_sets) all_sets) s1
        /\ unpack2 (RetPair (map sd_name all_sets) all_sets)
           = inr (map sd_name all_sets, all_sets))
  /\ (forall (serve : Z -> page_response set_descriptor) (K : nat),
        (forall n p,
           http n (ReqSets p 250) = HttpResponse 200 (Some (serve p))) ->
        no_data (Some (serve 1)) = false ->
        (1 <= K <= S fuel)%nat ->
        exits (Z.of_nat K) (Some (serve (Z.of_nat K))) = true ->
        exists k s',
          (1 <= k <= S fuel)%nat
          /\ get_all_set_names rate_limit_delay http (S fuel) s
             = Ret (RetPair (map sd_name (page_data serve 1 k))
                            (page_data serve 1 k)) s'
          /\ List.length (map sd_name (page_data serve 1 k))
             = List.length (page_data serve 1 k)
          /\ unpack2 (RetPair (map sd_name (page_data serve 1 k))
                              (page_data serve 1 k))
             = inr (map sd_name (page_data serve 1 k),
                    page_data serve 1 k))
  /\ (forall v, (exists p, unpack2 v = inr p)
                <-> exists set_names all_sets, v = RetPair set_names all_sets).
Proof.
  intro Hcall. split; [|split; [|split; [|split]]].
  - intro Hn. split; [|reflexivity].
    unfold get_all_set_names. cbn [get_all_set_names_loop]. unfold bind.
    rewrite Hcall, sets_page_no_data by exact Hn. reflexivity.
  - intros Hn r s' Hrun.
    assert (Hpair : exists all, r = RetPair (map sd_name all) all).
    { unfold get_all_set_names in Hrun.
      cbn [get_all_set_names_loop] in Hrun. unfold bind in Hrun.
      rewrite Hcall in Hrun.
      pose proof (sets_page_not_empty 1 [] response_data (or_introl Hn))
        as Hne.
      destruct (sets_page 1 [] response_data) as [|acc|acc].
      - exfalso. apply Hne. reflexivity.
      - inversion Hrun; subst. eauto.
      - eapply get_all_set_names_loop_pair; [|exact Hrun]. lia. }
    destruct Hpair as [all Hr]. exists all. subst r.
    split; [reflexivity|]. split; [apply length_map|reflexivity].
  - intros all_sets Hp. split; [|reflexivity].
    unfold get_all_set_names. cbn [get_all_set_names_loop]. unfold bind.
    rewrite Hcall, Hp. reflexivity.
  - intros serve K Hrel Hn HK Hexit.
    destruct (get_all_set_names_loop_returns rate_limit_delay http serve
                Hrel (K - 1) (S fuel) 1 [] s) as [r [s' Hrun]].
    + replace (1 + Z.of_nat (K - 1)) with (Z.of_nat K) by lia. exact Hexit.
    + lia.
    + destruct (get_all_set_names_loop_collects rate_limit_delay http serve
                  Hrel (S fuel) 1 [] s r s' ltac:(lia) Hrun)
        as [[_ [Hnd _]]|[k [Hk [Hr _]]]]; [congruence|].
      cbn [app] in Hr. exists k, s'. split; [exact Hk|].
      unfold get_all_set_names. rewrite Hrun, Hr.
      split; [reflexivity|]. split; [apply length_map|reflexivity].
  - intro v. split.
    + intros [p Hp]. destruct v as [|names sets]; [discriminate Hp|eauto].
    + intros [names [sets Hv]]. subst v. eexists. reflexivity.
Qed.

Lemma get_all_set_names_return_shapes_witness :
  (get_all_set_names 1 broken 1 init
   = Ret RetEmptyList
         (mkState 1 [EvCall (ReqSets 1 250); EvGet (ReqSets 1 250)])
   /\ unpack2 RetEmptyList = inl ValueError)
  /\ (exists k s',
        (1 <= k <= 3)%nat
        /\ get_all_set_names 1 (two_pages (mkSet None [])) 3 init
           = Ret (RetPair
                    (map sd_name
                       (page_data
                          (fun _ => mkPage (Some (repeat (mkSet None []) 250))
                                           (Some 250) (Some 500)) 1 k))
                    (page_data
                       (fun _ => mkPage (Some (repeat (mkSet None []) 250))
                                        (Some 250) (Some 500)) 1 k)) s'
        /\ List.length
             (map sd_name
                (page_data
                   (fun _ => mkPage (Some (repeat (mkSet None []) 250))
                                    (Some 250) (Some 500)) 1 k))
           = List.length
               (page_data
                  (fun _ => mkPage (Some (repeat (mkSet None []) 250))
                                   (Some 250) (Some 500)) 1 k)
        /\ unpack2
             (RetPair
                (map sd_name
                   (page_data
                      (fun _ => mkPage (Some (repeat (mkSet None []) 250))
                                       (Some 250) (Some 500)) 1 k))
                (page_data
                   (fun _ => mkPage (Some (repeat (mkSet None []) 250))
                                    (Some 250) (Some 500)) 1 k))
           = inr (map sd_name
                    (page_data
                       (fun _ => mkPage (Some (repeat (mkSet None []) 250))
                                        (Some 250) (Some 500)) 1 k),
                  page_data
                    (fun _ => mkPage (Some (repeat (mkSet None []) 250))
                                     (Some 250) (Some 500)) 1 k)).
Proof.
  split.
  - destruct (get_all_set_names_return_shapes
                1 broken 0 init None
                (mkState 1 [EvCall (ReqSets 1 250); EvGet (ReqSets 1 250)]))
      as [H _]; [reflexivity|].
    apply H. reflexivity.
  - destruct (get_all_set_names_return_shapes
                1 (two_pages (mkSet None [])) 2 init
                (Some (mkPage (Some (repeat (mkSet None []) 250))
                              (Some 250) (Some 500)))
                (mkState 1 [EvCall (ReqSets 1 250); EvGet (ReqSets 1 250)]))
      as [_ [_ [_ [H _]]]]; [reflexivity|].
    apply (H (fun _ => mkPage (Some (repeat (mkSet None []) 250))
                              (Some 250) (Some 500)) 2%nat).
    + intros n p. reflexivity.
    + reflexivity.
    + lia.
    + reflexivity.
Defined.
